(** * Silkworm staged sync: BlockHashes stage, RLP integer decoding, byte utilities

    A shallow embedding of the parts of Silkworm that the specification of the
    staged synchroniser talks about:

    - [Util]: [to_hash], [to_hex], [from_hex] (common/util.cpp);
    - [Rlp]: [read_uint64], [decode_header] and the integer decoders
      (rlp/decode.cpp);
    - [Kv]: the ordered key-value tables and the cursor moves the stage uses;
    - [Etl]: the collector;
    - [Stages]: [StageResult], [SyncContext], [IStage] and
      [StageBlockHashes::forward] / [unwind] (stagedsync/common.hpp,
      stagedsync/stage_blockhashes.cpp).

    Block numbers are [N] with the 64-bit wrap-around written out; byte strings
    are [list byte]; text is [string]. *)

From Stdlib Require Import NArith List Lia Bool.
From Stdlib.Strings Require Import String Ascii Byte.
From stdpp Require Import gmap strings sorting.
Import ListNotations.

Open Scope N_scope.

(** Byte strings ([silkworm::Bytes], [ByteView], [mdbx::slice]). *)
Abbreviation Bytes := (list byte).

(** ** common/util.cpp *)
Module Util.

(** [kHashLength] of common/base.hpp: a hash has 32 bytes. *)
Definition kHashLength : nat := 32.

(** [std::memcpy(dst + off, src, n)] on a buffer held as a list: the [n]
    first bytes of [src] replace the bytes [off .. off + n - 1] of [dst]. *)
Definition memcpy (dst : Bytes) (off : nat) (src : Bytes) (n : nat) : Bytes :=
  firstn off dst ++ firstn n src ++ skipn (off + n) dst.

(** [evmc::bytes32 out;] value-initialises its 32 bytes to zero. *)
Definition bytes32_zero : Bytes := repeat x00 kHashLength.

Definition to_hash (bytes : Bytes) : Bytes :=
  let out := bytes32_zero in
  let n := Nat.min (length bytes) kHashLength in
  memcpy out (kHashLength - n) bytes n.

(** [boost::algorithm::hex_lower]: two lower-case digits per byte, high
    nibble first. *)
Definition hex_digit (n : N) : ascii :=
  match n with
  | 0 => "0" | 1 => "1" | 2 => "2" | 3 => "3" | 4 => "4" | 5 => "5"
  | 6 => "6" | 7 => "7" | 8 => "8" | 9 => "9" | 10 => "a" | 11 => "b"
  | 12 => "c" | 13 => "d" | 14 => "e" | _ => "f"
  end%char.

Fixpoint hex_lower (bytes : Bytes) : string :=
  match bytes with
  | [] => EmptyString
  | b :: rest =>
      String (hex_digit (Byte.to_N b / 16))
        (String (hex_digit (Byte.to_N b mod 16)) (hex_lower rest))
  end.

(** [to_hex(ByteView)]: [hex_lower] into an empty string. *)
Definition to_hex (bytes : Bytes) : string := hex_lower bytes.

(** [boost::algorithm::unhex] throws [non_hex_input] on a character that is
    no hexadecimal digit and [not_enough_input] on an odd number of digits. *)
Inductive hex_decode_error := non_hex_input | not_enough_input.

Definition hex_char_to_int (c : ascii) : option N :=
  let n := N_of_ascii c in
  if (48 <=? n) && (n <=? 57) then Some (n - 48)
  else if (65 <=? n) && (n <=? 70) then Some (n - 65 + 10)
  else if (97 <=? n) && (n <=? 102) then Some (n - 97 + 10)
  else None.

Definition byte_of_N (n : N) : byte :=
  match Byte.of_N n with Some b => b | None => x00 end.

Fixpoint unhex (hex : string) : hex_decode_error + Bytes :=
  match hex with
  | EmptyString => inr []
  | String c1 tl =>
      match hex_char_to_int c1 with
      | None => inl non_hex_input
      | Some hi =>
          match tl with
          | EmptyString => inl not_enough_input
          | String c2 rest =>
              match hex_char_to_int c2 with
              | None => inl non_hex_input
              | Some lo =>
                  match unhex rest with
                  | inl e => inl e
                  | inr out => inr (byte_of_N (16 * hi + lo) :: out)
                  end
              end
          end
      end
  end.

(** The [0x] / [0X] test of [from_hex]: [hex.length() >= 2 && hex[0] == '0'
    && (hex[1] == 'x' || hex[1] == 'X')]. *)
Definition has_0x_prefix (hex : string) : bool :=
  match hex with
  | String c0 (String c1 _) =>
      Ascii.eqb c0 "0" && (Ascii.eqb c1 "x" || Ascii.eqb c1 "X")
  | _ => false
  end.

Definition from_hex (hex : string) : hex_decode_error + Bytes :=
  let hex := if has_0x_prefix hex then String.substring 2 (String.length hex - 2) hex else hex in
  unhex hex.

(** The [while] loop of [zeroless_view]: [n] is [kHashLength - zero_bytes],
    [bytes] is what lies at [hash.bytes + zero_bytes]; the result is the
    number of further zero bytes counted. *)
Fixpoint count_zero_bytes (n : nat) (bytes : Bytes) : nat :=
  match n, bytes with
  | S n', b :: tl => if Byte.to_N b =? 0 then S (count_zero_bytes n' tl) else O
  | _, _ => O
  end.

(** [zeroless_view(hash)], for [hash] the 32 bytes of an [evmc::bytes32]. *)
Definition zeroless_view (hash : Bytes) : Bytes :=
  let zero_bytes := count_zero_bytes kHashLength hash in
  firstn (kHashLength - zero_bytes) (skipn zero_bytes hash).

End Util.

(** ** rlp/decode.cpp *)
Module Rlp.

(** What a decoder can raise: [DecodingError] with its message, the
    [std::ios_base::failure] of a stream whose exception mask
    [decode_header] has set to [eofbit | failbit | badbit], and a failed
    [assert]. *)
Inductive error :=
| DecodingError (what : string)
| ios_failure
| assertion_failed.

Definition result (A : Type) : Type := error + A.

Definition bind {A B} (r : result A) (k : A -> result B) : result B :=
  match r with
  | inl e => inl e
  | inr a => k a
  end.

Notation "'try' x '<~' r 'in' k" := (bind r (fun x => k))
  (at level 10, x pattern, r at level 100, k at level 200).

(** A [std::istream] is the bytes that are still to be read. Every function
    of this file reads the stream after [decode_header] has set the
    exception mask, so running out of input raises [ios_failure]. *)
Abbreviation istream := Bytes.

Definition peek (from : istream) : result N :=
  match from with
  | [] => inl ios_failure
  | c :: _ => inr (Byte.to_N c)
  end.

Definition read (from : istream) (n : nat) : result (Bytes * istream) :=
  if (length from <? n)%nat then inl ios_failure
  else inr (firstn n from, skipn n from).

(** The value of an integer whose little-endian memory image is [mem]. *)
Fixpoint le_value (mem : Bytes) : N :=
  match mem with
  | [] => 0
  | b :: tl => Byte.to_N b + 256 * le_value tl
  end.

(** [intx::bswap] reverses the bytes of the integer. *)
Definition bswap (mem : Bytes) : N := le_value (rev mem).

(** [from.read(p + (width - len), len)] into a zeroed [width]-byte buffer. *)
Definition read_into_buf (width : nat) (from : istream) (len : nat)
  : result (Bytes * istream) :=
  try (payload, from) <~ read from len in
  inr (repeat x00 (width - len) ++ payload, from).

Definition read_uint64 (from : istream) (len : N) : result (N * istream) :=
  if 8 <? len then inl assertion_failed
  else if len =? 0 then inr (0, from)
  else
    try c <~ peek from in
    if c =? 0 then inl (DecodingError "leading zero(s)")
    else
      try (buf, from) <~ read_into_buf 8 from (N.to_nat len) in
      inr (bswap buf, from).

Record Header := { list : bool; payload_length : N }.

Definition decode_header (from : istream) : result (Header * istream) :=
  match from with
  | [] => inl ios_failure
  | c :: tl =>
      let b := Byte.to_N c in
      if b <? 0x80 then
        inr ({| list := false; payload_length := 1 |}, from)
      else if b <? 0xB8 then
        let len := b - 0x80 in
        if len =? 1 then
          try p <~ peek tl in
          if p <? 0x80 then inl (DecodingError "non-canonical single byte")
          else inr ({| list := false; payload_length := len |}, tl)
        else inr ({| list := false; payload_length := len |}, tl)
      else if b <? 0xC0 then
        try (len, from) <~ read_uint64 tl (b - 0xB7) in
        if len <? 56 then inl (DecodingError "non-canonical size")
        else inr ({| list := false; payload_length := len |}, from)
      else if b <? 0xF8 then
        inr ({| list := true; payload_length := b - 0xC0 |}, tl)
      else
        try (len, from) <~ read_uint64 tl (b - 0xF7) in
        if len <? 56 then inl (DecodingError "non-canonical size")
        else inr ({| list := true; payload_length := len |}, from)
  end.

(** [decode(std::istream&, uint64_t&)] *)
Definition decode_uint64 (from : istream) : result (N * istream) :=
  try (h, from) <~ decode_header from in
  if list h then inl (DecodingError "unexpected list")
  else if 8 <? payload_length h then inl (DecodingError "uint64 overflow")
  else read_uint64 from (payload_length h).

(** [decode(std::istream&, intx::uint256&)] *)
Definition decode_uint256 (from : istream) : result (N * istream) :=
  try (h, from) <~ decode_header from in
  if list h then inl (DecodingError "unexpected list")
  else if 32 <? payload_length h then inl (DecodingError "uint256 overflow")
  else if payload_length h =? 0 then inr (0, from)
  else
    try c <~ peek from in
    if c =? 0 then inl (DecodingError "leading zero(s)")
    else
      try (buf, from) <~ read_into_buf 32 from (N.to_nat (payload_length h)) in
      inr (bswap buf, from).

(** [decode(std::istream&, Bytes&)]. [kMaxStringSize] is declared in
    rlp/decode.hpp, which is not part of the sources: it is a parameter. *)
Definition decode_bytes (kMaxStringSize : N) (from : istream) : result (Bytes * istream) :=
  try (h, from) <~ decode_header from in
  if list h then inl (DecodingError "unexpected list")
  else if kMaxStringSize <? payload_length h then inl (DecodingError "string is too long")
  else read from (N.to_nat (payload_length h)).

End Rlp.

(** ** The key-value store (libmdbx) as the stage uses it *)
Module Kv.

(** A table is the sequence of its (key, value) entries in key order. *)
Definition Entry : Type := Bytes * Bytes.
Abbreviation Table := (list (Bytes * Bytes)).

(** The key order of a table: [memcmp] over the common prefix, then the
    shorter key first. *)
Fixpoint bytes_compare (a b : Bytes) : comparison :=
  match a, b with
  | [], [] => Eq
  | [], _ :: _ => Lt
  | _ :: _, [] => Gt
  | x :: a', y :: b' =>
      match Byte.to_N x ?= Byte.to_N y with
      | Eq => bytes_compare a' b'
      | c => c
      end
  end.

Definition bytes_eqb (a b : Bytes) : bool :=
  match bytes_compare a b with Eq => true | _ => false end.

Definition bytes_ltb (a b : Bytes) : bool :=
  match bytes_compare a b with Lt => true | _ => false end.

(** [get_map_stat(map).ms_entries] *)
Definition ms_entries (t : Table) : N := N.of_nat (length t).

(** [cursor.find(key, /*throw_notfound=*/false)] is the exact-match move
    [MDBX_SET_KEY]. The result is the entry under the cursor followed by the
    entries that [cursor.to_next(/*throw_notfound=*/false)] will visit one
    after the other; it is empty when the key is absent ([done == false]). *)
Fixpoint find (t : Table) (key : Bytes) : Table :=
  match t with
  | [] => []
  | (k, v) :: rest => if bytes_eqb k key then t else find rest key
  end.

(** [cursor.seek(key)] is the exact-match move [MDBX_SET]: it tells whether
    the table has the key. *)
Fixpoint seek (t : Table) (key : Bytes) : bool :=
  match t with
  | [] => false
  | (k, _) :: rest => bytes_eqb k key || seek rest key
  end.

(** [cursor.erase()] after a successful [seek(key)]. *)
Fixpoint erase (t : Table) (key : Bytes) : Table :=
  match t with
  | [] => []
  | (k, v) :: rest => if bytes_eqb k key then rest else (k, v) :: erase rest key
  end.

Inductive MDBX_put_flags_t := MDBX_UPSERT | MDBX_APPEND.

(** A put with [MDBX_UPSERT] inserts the entry at its place in key order and
    overwrites the value of a key that is already there. *)
Fixpoint upsert (t : Table) (key value : Bytes) : Table :=
  match t with
  | [] => [(key, value)]
  | (k, v) :: rest =>
      match bytes_compare key k with
      | Lt => (key, value) :: t
      | Eq => (key, value) :: rest
      | Gt => (k, v) :: upsert rest key value
      end
  end.

(** A put with [MDBX_APPEND] adds the entry at the end and is refused
    ([MDBX_EKEYMISMATCH]) unless the key is greater than the last key of the
    table. *)
Definition append (t : Table) (key value : Bytes) : option Table :=
  match last t with
  | None => Some [(key, value)]
  | Some (k, _) =>
      if bytes_ltb k key then Some (t ++ [(key, value)]) else None
  end.

Definition put (flags : MDBX_put_flags_t) (t : Table) (key value : Bytes)
  : option Table :=
  match flags with
  | MDBX_UPSERT => Some (upsert t key value)
  | MDBX_APPEND => append t key value
  end.

(** The tables of db/tables.hpp that the stage touches. The two progress
    tables are held by stage key. *)
Record Db := mkDb {
  CanonicalHashes : Table;
  HeaderNumbers : Table;
  SyncStageProgress : gmap string N;
  SyncStagePruneProgress : gmap string N
}.

Definition set_HeaderNumbers (t : Table) (db : Db) : Db :=
  mkDb (CanonicalHashes db) t (SyncStageProgress db) (SyncStagePruneProgress db).

Definition set_SyncStageProgress (m : gmap string N) (db : Db) : Db :=
  mkDb (CanonicalHashes db) (HeaderNumbers db) m (SyncStagePruneProgress db).

(** A write issued on the transaction. *)
Inductive Op :=
| OpPut (flags : MDBX_put_flags_t) (key value : Bytes)   (* into HeaderNumbers *)
| OpErase (key : Bytes)                                  (* from HeaderNumbers *)
| OpWriteProgress (stage_key : string) (progress : N)
| OpCommit.

(** [db::TransactionManager]: the state the last commit left, the state the
    open transaction sees, and (ghost) the writes issued so far. *)
Record TransactionManager := mkTx {
  committed : Db;
  txn : Db;
  journal : list Op
}.

Definition commit (tx_mgr : TransactionManager) : TransactionManager :=
  mkTx (txn tx_mgr) (txn tx_mgr) (journal tx_mgr ++ [OpCommit]).

(** Modelled from the spec: db::stages::read_stage_progress (db/stages.cpp
    is not part of the sources). "Both default to 0 when absent." *)
Definition read_stage_progress (db : Db) (stage_key : string) : N :=
  default 0 (SyncStageProgress db !! stage_key).

(** Modelled from the spec: db::stages::write_stage_progress, the
    [put_progress(stage_key, BlockNum)] of the progress registry. *)
Definition write_stage_progress (tx_mgr : TransactionManager)
    (stage_key : string) (progress : N) : TransactionManager :=
  mkTx (committed tx_mgr)
       (set_SyncStageProgress (<[stage_key := progress]> (SyncStageProgress (txn tx_mgr)))
                             (txn tx_mgr))
       (journal tx_mgr ++ [OpWriteProgress stage_key progress]).

(** Big-endian image of [n] on [width] bytes. *)
Fixpoint be_bytes (width : nat) (n : N) : Bytes :=
  match width with
  | O => []
  | S w => Util.byte_of_N ((n / 256 ^ N.of_nat w) mod 256) :: be_bytes w n
  end.

(** Modelled from the spec: db::block_key (db/util.cpp is not part of the
    sources), the 8-byte big-endian key "BlockNum_BE (8 B)". *)
Definition block_key (block_number : N) : Bytes := be_bytes 8 block_number.

Definition be_value (p : Bytes) : N :=
  fold_left (fun acc b => 256 * acc + Byte.to_N b) p 0.

(** [endian::load_big_u64(p)] reads the eight bytes at [p]. A key shorter
    than eight bytes makes the source read past its end; the theorems below
    ask for eight bytes where the value matters. *)
Definition load_big_u64 (p : Bytes) : N := be_value (firstn 8 p).

(** Modelled from the spec: db::stages::read_stage_prune_progress (db/stages.cpp
    is not part of the sources). "Both default to 0 when absent." *)
Definition read_stage_prune_progress (db : Db) (stage_key : string) : N :=
  default 0 (SyncStagePruneProgress db !! stage_key).

End Kv.

(** ** etl/collector.hpp *)
Module Etl.
Import Kv.

(** Modelled from the spec: etl::Collector (etl/collector.cpp is not part of
    the sources). "Ordering is lexicographic on key then value." *)
Definition entry_compare (a b : Entry) : comparison :=
  match bytes_compare (fst a) (fst b) with
  | Eq => bytes_compare (snd a) (snd b)
  | c => c
  end.

(** [a] comes no later than [b] in that order. *)
Definition entry_le (a b : Entry) : Prop :=
  Is_true (match entry_compare a b with Gt => false | _ => true end).

#[global] Instance entry_le_dec a b : Decision (entry_le a b).
Proof. unfold entry_le. apply _. Defined.

(** Modelled from the spec: the collector holds the entries collected so
    far; spilling sorted runs to disk and merging them yields the same
    sequence as sorting the whole buffer ("load inserts exactly the entries
    of sort(E, by=(key,value))"). *)
Abbreviation Collector := (list (Bytes * Bytes)).

(** Modelled from the spec: a collector is created empty at the start of a
    call ("Collectors are per-invocation"). *)
Definition new_collector : Collector := [].

(** Modelled from the spec: "collect(key, value) — append an entry". *)
Definition collect (c : Collector) (e : Entry) : Collector := c ++ [e].

(** Modelled from the spec: "size() -> uint64 — total entries collected so
    far". *)
Definition size (c : Collector) : N := N.of_nat (length c).

(** Modelled from the spec: "empty() -> bool". *)
Definition empty (c : Collector) : bool := size c =? 0.

(** Modelled from the spec: the entries in the order [load] inserts them,
    "sort(E, by=(key,value))". *)
Definition sorted_entries (c : Collector) : list Entry := merge_sort entry_le c.

(** Modelled from the spec: "load(dest_cursor, transform?, mode)" without a
    transform: "consume all entries in sorted order and insert them". In
    APPEND mode the insert "requires strictly increasing keys"; a violation
    makes the load fail ([None]: the MDBX error is thrown) with the
    "destination table size unchanged". In UPSERT mode "duplicate keys
    overwrite". *)
Fixpoint put_all (flags : MDBX_put_flags_t) (t : Table) (es : list Entry)
  : option Table :=
  match es with
  | [] => Some t
  | (k, v) :: rest =>
      match put flags t k v with
      | None => None
      | Some t' => put_all flags t' rest
      end
  end.

Definition load (c : Collector) (target_table : Table) (flags : MDBX_put_flags_t)
  : option Table :=
  put_all flags target_table (sorted_entries c).

End Etl.

(** ** stagedsync/common.hpp, stagedsync/stage_blockhashes.{hpp,cpp} *)
Module Stages.
Import Kv.

Inductive StageResult :=
| kSuccess
| kUnknownChainId
| kUnknownConsensusEngine
| kBadBlockHash
| kBadChainSequence
| kInvalidRange
| kInvalidProgress
| kInvalidBlock
| kInvalidTransaction
| kMissingSenders
| kDecodingError
| kUnexpectedError
| kUnknownError
| kDbError
| kAborted
| kNotImplemented.

(** [BlockNum] is [uint64_t]: arithmetic wraps at [2 ^ 64]. *)
Abbreviation BlockNum := N.

Definition wrap64 (n : N) : BlockNum := n mod 2 ^ 64.

(** Modelled from the spec: the stage keys of db/stages.hpp, which is not
    part of the sources ("StageKey: short stable string identifier (e.g.
    BlockHashes, Senders, Execution)"). *)
Definition kBlockBodiesKey : string := "Bodies".
Definition kBlockHashesKey : string := "BlockHashes".

(** [SyncContext], without the data directory and the prune mode. *)
Record SyncContext := mkContext {
  first_cycle_ : bool;
  is_done_ : bool;
  progresses_ : gmap string N;
  prune_progresses_ : gmap string N;
  unwind_height_ : option N
}.

Definition set_progresses_ (m : gmap string N) (c : SyncContext) : SyncContext :=
  mkContext (first_cycle_ c) (is_done_ c) m (prune_progresses_ c) (unwind_height_ c).

Definition get_progress (txn : Db) (stage_key : string) (context : SyncContext)
  : BlockNum * SyncContext :=
  match progresses_ context !! stage_key with
  | Some progress => (progress, context)
  | None =>
      let db_progress := read_stage_progress txn stage_key in
      (db_progress,
       set_progresses_ (<[stage_key := db_progress]> (progresses_ context)) context)
  end.

(** [needs_unwind(progress, unwind_progress)]: the second component is the
    out-parameter [unwind_progress] after the call. *)
Definition needs_unwind (context : SyncContext) (progress unwind_progress : BlockNum)
  : bool * BlockNum :=
  match unwind_height_ context with
  | None => (false, unwind_progress)
  | Some h =>
      if progress <=? h then (false, unwind_progress) else (true, h)
  end.

Definition update_progress (tx_mgr : TransactionManager) (stage_key : string)
    (progress : BlockNum) (context : SyncContext)
  : TransactionManager * SyncContext :=
  (write_stage_progress tx_mgr stage_key progress,
   set_progresses_ (<[stage_key := progress]> (progresses_ context)) context).

(** The data members of [IStage]. *)
Record IStage := mkIStage {
  stage_key_ : string;
  ordinal_ : N;
  has_pruning_ : bool;
  disabled_ : bool
}.

Definition outcome : Type := StageResult * TransactionManager * SyncContext.

Definition method : Type := IStage -> TransactionManager -> SyncContext -> outcome.

(** [IStage::prune], the body a stage inherits when it does not override
    it: a warning is logged and that is all. *)
Definition IStage_prune : method :=
  fun self tx_mgr context => (kSuccess, tx_mgr, context).

(** The body of the [while (source_data.done)] loop of [forward], over the
    entries the source cursor visits. [inl] is an early [return]; [inr] is
    the state of [block_number] and of the collector when the cursor runs
    out. *)
Fixpoint forward_loop (source_data : Table)
    (expected_block_number block_number : BlockNum) (collector : Etl.Collector)
  : StageResult + (BlockNum * Etl.Collector) :=
  match source_data with
  | [] => inr (block_number, collector)
  | (key, value) :: to_next =>
      let block_number := load_big_u64 key in
      if negb (block_number =? expected_block_number) then inl kBadChainSequence
      else if negb (length value =? Util.kHashLength)%nat then inl kBadBlockHash
      else
        forward_loop to_next (wrap64 (expected_block_number + 1)) block_number
          (Etl.collect collector (value, key))
  end.

(** [StageBlockHashes::forward]. The only exception of the model is the one
    [collector.load] raises when MDBX refuses an append; it is an
    [mdbx::exception], which the first [catch] turns into [kDbError]. A
    failure of the store itself (a cursor move, a write or the commit that
    throws) is outside the model, so no path of it leads to
    [kUnexpectedError] or [kUnknownError]. *)
Definition StageBlockHashes_forward : method :=
  fun self tx_mgr context =>
  let collector := Etl.new_collector in
  let '(progress_bodies, context) := get_progress (txn tx_mgr) kBlockBodiesKey context in
  let '(progress, context) := get_progress (txn tx_mgr) (stage_key_ self) context in
  let expected_block_number := if progress =? 0 then progress else wrap64 (progress + 1) in
  let block_number := 0 in
  let source_key := block_key expected_block_number in
  let source_data := find (CanonicalHashes (txn tx_mgr)) source_key in
  match forward_loop source_data expected_block_number block_number collector with
  | inl result => (result, tx_mgr, context)
  | inr (block_number, collector) =>
      if negb (block_number =? progress_bodies) then (kBadChainSequence, tx_mgr, context)
      else if Etl.empty collector then (kSuccess, tx_mgr, context)
      else
        let target_table := HeaderNumbers (txn tx_mgr) in
        let target_table_empty := ms_entries target_table =? 0 in
        let db_flags := if target_table_empty then MDBX_APPEND else MDBX_UPSERT in
        match Etl.load collector target_table db_flags with
        | None => (kDbError, tx_mgr, context)
        | Some loaded =>
            let tx_mgr :=
              mkTx (committed tx_mgr) (set_HeaderNumbers loaded (txn tx_mgr))
                   (journal tx_mgr
                    ++ map (fun e => OpPut db_flags (fst e) (snd e))
                           (Etl.sorted_entries collector)) in
            let '(tx_mgr, context) :=
              update_progress tx_mgr (stage_key_ self) block_number context in
            (kSuccess, commit tx_mgr, context)
        end
  end.

(** [target_table.seek(value)] then [target_table.erase()], or the warning. *)
Definition delete_mapping (tx_mgr : TransactionManager) (hash : Bytes)
  : TransactionManager :=
  if seek (HeaderNumbers (txn tx_mgr)) hash then
    mkTx (committed tx_mgr)
         (set_HeaderNumbers (erase (HeaderNumbers (txn tx_mgr)) hash) (txn tx_mgr))
         (journal tx_mgr ++ [OpErase hash])
  else tx_mgr.

(** The loop of [unwind]. [Some result] is an early [return]; the
    transaction keeps the erasures made before it. *)
Fixpoint unwind_loop (source_data : Table) (expected_block_number : BlockNum)
    (tx_mgr : TransactionManager) : option StageResult * TransactionManager :=
  match source_data with
  | [] => (None, tx_mgr)
  | (key, value) :: to_next =>
      let block_number := load_big_u64 key in
      if negb (block_number =? expected_block_number) then (Some kBadChainSequence, tx_mgr)
      else if negb (length value =? Util.kHashLength)%nat then (Some kBadBlockHash, tx_mgr)
      else
        unwind_loop to_next (wrap64 (expected_block_number + 1))
          (delete_mapping tx_mgr value)
  end.

(** [StageBlockHashes::unwind]. A failure of the store itself is outside
    the model, so no path of it leads to the [catch] clauses ([kDbError],
    [kUnexpectedError], [kUnknownError]). *)
Definition StageBlockHashes_unwind : method :=
  fun self tx_mgr context =>
  let '(progress, context) := get_progress (txn tx_mgr) (stage_key_ self) context in
  let unwind_progress := 0 in
  let '(needed, unwind_progress) := needs_unwind context progress unwind_progress in
  if negb needed then (kSuccess, tx_mgr, context)
  else
    let expected_block_number :=
      if unwind_progress =? 0 then unwind_progress else wrap64 (unwind_progress + 1) in
    let source_key := block_key expected_block_number in
    let source_data := find (CanonicalHashes (txn tx_mgr)) source_key in
    match unwind_loop source_data expected_block_number tx_mgr with
    | (Some result, tx_mgr) => (result, tx_mgr, context)
    | (None, tx_mgr) =>
        let '(tx_mgr, context) :=
          update_progress tx_mgr (stage_key_ self) unwind_progress context in
        (kSuccess, commit tx_mgr, context)
    end.

(** A stage object: the [IStage] members and the virtual functions of its
    class. [prune_override] is [None] for a class that inherits
    [IStage::prune]. *)
Record Stage := mkStage {
  self : IStage;
  forward_impl : method;
  unwind_impl : method;
  prune_override : option method
}.

Definition forward (s : Stage) := forward_impl s (self s).
Definition unwind (s : Stage) := unwind_impl s (self s).
Definition prune (s : Stage) :=
  match prune_override s with
  | Some m => m (self s)
  | None => IStage_prune (self s)
  end.

Definition key (s : Stage) : string := stage_key_ (self s).
Definition get_ordinal (s : Stage) : N := ordinal_ (self s).
Definition has_pruning (s : Stage) : bool := has_pruning_ (self s).
Definition is_disabled (s : Stage) : bool := disabled_ (self s).

(** [StageBlockHashes(ordinal) : IStage(kBlockHashesKey, ordinal, false, false)],
    with [forward] and [unwind] overridden and [prune] inherited. *)
Definition StageBlockHashes (ordinal : N) : Stage :=
  mkStage (mkIStage kBlockHashesKey ordinal false false)
          StageBlockHashes_forward StageBlockHashes_unwind None.

Definition set_prune_progresses_ (m : gmap string N) (c : SyncContext) : SyncContext :=
  mkContext (first_cycle_ c) (is_done_ c) (progresses_ c) m (unwind_height_ c).

(** [SyncContext::clear]; emptying the etl directory is outside the model. *)
Definition clear (context : SyncContext) : SyncContext :=
  mkContext true (is_done_ context) ∅ ∅ (unwind_height_ context).

(** [SyncContext::clear_first_cycle] *)
Definition clear_first_cycle (context : SyncContext) : SyncContext :=
  mkContext false (is_done_ context) (progresses_ context) (prune_progresses_ context)
            (unwind_height_ context).

(** [SyncContext::get_prune_progress] *)
Definition get_prune_progress (txn : Db) (stage_key : string) (context : SyncContext)
  : BlockNum * SyncContext :=
  match prune_progresses_ context !! stage_key with
  | Some progress => (progress, context)
  | None =>
      let db_progress := read_stage_prune_progress txn stage_key in
      (db_progress,
       set_prune_progresses_ (<[stage_key := db_progress]> (prune_progresses_ context))
                             context)
  end.

(** [SyncContext::is_done] and [SyncContext::set_done] *)
Definition is_done (context : SyncContext) : bool := is_done_ context.

Definition set_done (context : SyncContext) : SyncContext :=
  mkContext (first_cycle_ context) true (progresses_ context) (prune_progresses_ context)
            (unwind_height_ context).

(** [SyncContext::unwind_height] *)
Definition unwind_height (context : SyncContext) : option BlockNum :=
  unwind_height_ context.

End Stages.

(** ** Vocabulary of the stage properties *)
Module StageProps.
Import Kv Stages.

(** [progress(S)]: the watermark of stage [S] as the stage code reads it,
    through the cache of the context. *)
Definition progress (tx_mgr : TransactionManager) (context : SyncContext)
    (stage_key : string) : BlockNum :=
  fst (get_progress (txn tx_mgr) stage_key context).

(** The context once [forward] has read the watermarks of Bodies and of
    BlockHashes: the two values are now cached, nothing else changed. *)
Definition after_reads (tx_mgr : TransactionManager) (context : SyncContext)
  : SyncContext :=
  snd (get_progress (txn tx_mgr) kBlockHashesKey
         (snd (get_progress (txn tx_mgr) kBlockBodiesKey context))).

(** The block number the source cursor is first positioned on. *)
Definition first_block (progress : BlockNum) : BlockNum :=
  if progress =? 0 then progress else wrap64 (progress + 1).

(** The entries [es], visited in turn with [expected] as the number awaited
    for the first of them, all pass the two checks of the loop. *)
Fixpoint in_sequence (es : Table) (expected : BlockNum) : bool :=
  match es with
  | [] => true
  | (key, value) :: rest =>
      (load_big_u64 key =? expected)
      && (length value =? Util.kHashLength)%nat
      && in_sequence rest (wrap64 (expected + 1))
  end.

(** The number awaited after [es] have been visited. *)
Fixpoint expected_after (es : Table) (expected : BlockNum) : BlockNum :=
  match es with
  | [] => expected
  | _ :: rest => expected_after rest (wrap64 (expected + 1))
  end.

(** Keys of eight bytes, as the schema of CanonicalHashes has them. *)
Definition keys_8 (es : Table) : Prop :=
  Forall (fun e : Entry => length (fst e) = 8%nat) es.

(** The key of [a] is strictly below the key of [b]. *)
Definition key_lt (a b : Entry) : Prop := bytes_ltb (fst a) (fst b) = true.

(** The puts among the writes of a journal. *)
Definition put_flags (ops : list Op) : list MDBX_put_flags_t :=
  flat_map (fun op => match op with OpPut flags _ _ => [flags] | _ => [] end) ops.

(** The transaction with [t] for HeaderNumbers. *)
Definition with_HeaderNumbers (t : Table) (tx_mgr : TransactionManager)
  : TransactionManager :=
  mkTx (committed tx_mgr) (set_HeaderNumbers t (txn tx_mgr)) (journal tx_mgr).

(** *** The scenarios of the specification *)

Definition hash_aa : Bytes := repeat xaa 32.
Definition hash_bb : Bytes := repeat xbb 32.
Definition hash_cc : Bytes := repeat xcc 32.

(** [CanonicalHashes = {1 -> 0xaa.., 2 -> 0xbb.., 3 -> 0xcc..}] *)
Definition canonical_1_3 : Table :=
  [(block_key 1, hash_aa); (block_key 2, hash_bb); (block_key 3, hash_cc)].

(** The same with the genesis entry [0 -> h0] in front. *)
Definition canonical_0_3 (h0 : Bytes) : Table := (block_key 0, h0) :: canonical_1_3.

Definition inverse_1_3 : Table :=
  [(hash_aa, block_key 1); (hash_bb, block_key 2); (hash_cc, block_key 3)].

(** A database with the given tables and watermarks of Bodies and
    BlockHashes, and a transaction just opened on it. *)
Definition db_of (canonical headers : Table) (bodies hashes : BlockNum) : Db :=
  mkDb canonical headers
       (<[kBlockHashesKey := hashes]> (<[kBlockBodiesKey := bodies]> ∅)) ∅.

Definition open_tx (db : Db) : TransactionManager := mkTx db db [].

(** A context with nothing cached and no unwind requested. *)
Definition fresh_context : SyncContext := mkContext true false ∅ ∅ None.

Definition unwinding_to (h : BlockNum) : SyncContext :=
  mkContext true false ∅ ∅ (Some h).

Definition hash_11 : Bytes := repeat x11 32.

End StageProps.

(** ** Vocabulary of the further properties *)
Module MoreProps.
Import Kv Stages StageProps.

(** The value a table holds under [key], if any. *)
Fixpoint value_of (t : Table) (key : Bytes) : option Bytes :=
  match t with
  | [] => None
  | (k, v) :: rest => if bytes_eqb k key then Some v else value_of rest key
  end.

(** A table as the store keeps it: keys strictly increasing. *)
Definition sorted_table (t : Table) : Prop := StronglySorted key_lt t.

(** The canonical entries of consecutive blocks: [hashes] numbered from
    [first] upwards, under their [block_key]. *)
Fixpoint chain (first : BlockNum) (hashes : list Bytes) : Table :=
  match hashes with
  | [] => []
  | h :: rest => (block_key first, h) :: chain (first + 1) rest
  end.

(** The context with an unwind to [h] requested. *)
Definition request_unwind (h : BlockNum) (c : SyncContext) : SyncContext :=
  mkContext (first_cycle_ c) (is_done_ c) (progresses_ c) (prune_progresses_ c) (Some h).

(** No leading zero byte. *)
Definition zeroless (bytes : Bytes) : Prop :=
  match bytes with
  | [] => True
  | b :: _ => b <> x00
  end.

(** Lower case of an ASCII letter, any other character unchanged. *)
Definition ascii_lower (c : ascii) : ascii :=
  let n := N_of_ascii c in
  if (65 <=? n) && (n <=? 90) then ascii_of_N (n + 32) else c.

Fixpoint string_lower (s : string) : string :=
  match s with
  | EmptyString => EmptyString
  | String c rest => String (ascii_lower c) (string_lower rest)
  end.

(** The digits of a hex string: what follows the [0x] or [0X] prefix when
    there is one. *)
Definition hex_digits (hex : string) : string :=
  match hex with
  | String c0 (String c1 rest) => if Util.has_0x_prefix hex then rest else hex
  | _ => hex
  end.

(** Every character is a hexadecimal digit. *)
Fixpoint all_hex (s : string) : bool :=
  match s with
  | EmptyString => true
  | String c rest =>
      match Util.hex_char_to_int c with
      | Some _ => all_hex rest
      | None => false
      end
  end.

(** The RLP item of a string of at most 55 bytes: a single byte below [0x80]
    stands for itself, any other payload follows the prefix
    [0x80 + length]. *)
Definition string_item (payload : Bytes) : Bytes :=
  match payload with
  | [b] => if Byte.to_N b <? 0x80 then [b]
           else Util.byte_of_N (0x80 + 1) :: payload
  | _ => Util.byte_of_N (0x80 + N.of_nat (length payload)) :: payload
  end.

End MoreProps.

Example to_hex_ex : Util.to_hex [x01; xc9] = "01c9"%string.
Proof. reflexivity. Qed.

Example from_hex_ex : Util.from_hex "0x01C9" = inr [x01; xc9].
Proof. reflexivity. Qed.

Example to_hash_ex : Util.to_hash [x01; xc9] = repeat x00 30 ++ [x01; xc9].
Proof. reflexivity. Qed.

(** The cases of rlp/decode_test.cpp. *)
Example decode_uint64_tests :
  Rlp.decode_uint64 [x09] = inr (9, [])
  /\ Rlp.decode_uint64 [x80] = inr (0, [])
  /\ Rlp.decode_uint64 [x82; x05; x05] = inr (0x0505, [])
  /\ Rlp.decode_uint64 [x85; x05; x05; x05; x05; x05] = inr (0x0505050505, [])
  /\ Rlp.decode_uint64 [xc0] = inl (Rlp.DecodingError "unexpected list")
  /\ Rlp.decode_uint64 [x00] = inl (Rlp.DecodingError "leading zero(s)")
  /\ Rlp.decode_uint64 [x81; x05] = inl (Rlp.DecodingError "non-canonical single byte")
  /\ Rlp.decode_uint64 [x82; x00; x04] = inl (Rlp.DecodingError "leading zero(s)")
  /\ Rlp.decode_uint64 [xb8; x02; x00; x04] = inl (Rlp.DecodingError "non-canonical size")
  /\ Rlp.decode_uint64 [x89; xff; xff; xff; xff; xff; xff; xff; xff; xff; x7c]
     = inl (Rlp.DecodingError "uint64 overflow").
Proof. repeat split; reflexivity. Qed.

(** * Properties of the byte utilities *)
Section UtilFacts.
Import Util.

Lemma firstn_repeat_le {A} (x : A) (m n : nat) :
  (m <= n)%nat -> firstn m (repeat x n) = repeat x m.
Proof.
  revert n. induction m as [|m IH]; intros [|n] Hle; simpl; try reflexivity; try lia.
  f_equal. apply IH. lia.
Qed.

Lemma skipn_repeat_all {A} (x : A) (n : nat) : skipn n (repeat x n) = [].
Proof. induction n; simpl; auto. Qed.

Lemma to_hash_eq (bytes : Bytes) :
  to_hash bytes
  = repeat x00 (kHashLength - Nat.min (length bytes) kHashLength)
    ++ firstn (Nat.min (length bytes) kHashLength) bytes.
Proof.
  unfold to_hash, memcpy, bytes32_zero.
  set (n := Nat.min (length bytes) kHashLength).
  assert (Hn : (n <= kHashLength)%nat) by (subst n; lia).
  rewrite firstn_repeat_le by lia.
  replace (kHashLength - n + n)%nat with kHashLength by lia.
  rewrite skipn_repeat_all, app_nil_r. reflexivity.
Qed.

(** One byte of [hex_lower] output is read back by [unhex]. *)
Lemma unhex_hex_digits (b : byte) (s : string) :
  unhex (String (hex_digit (Byte.to_N b / 16))
           (String (hex_digit (Byte.to_N b mod 16)) s))
  = match unhex s with
    | inl e => inl e
    | inr out => inr (b :: out)
    end.
Proof. destruct b; reflexivity. Qed.

Lemma unhex_to_hex (bytes : Bytes) : unhex (to_hex bytes) = inr bytes.
Proof.
  unfold to_hex. induction bytes as [|b rest IH].
  - reflexivity.
  - cbn [hex_lower]. rewrite unhex_hex_digits, IH. reflexivity.
Qed.

(** [hex_lower] never writes an [x], so [from_hex] strips nothing from it. *)
Lemma to_hex_no_prefix (bytes : Bytes) : has_0x_prefix (to_hex bytes) = false.
Proof.
  destruct bytes as [|b rest]; [reflexivity|].
  unfold to_hex. cbn [hex_lower has_0x_prefix].
  destruct b; reflexivity.
Qed.

Lemma substring_whole (s : string) : String.substring 0 (String.length s) s = s.
Proof. induction s as [|c s IH]; simpl; [reflexivity | now rewrite IH]. Qed.

Lemma from_hex_strips (x : ascii) (s : string) :
  (Ascii.eqb x "x" || Ascii.eqb x "X")%char = true ->
  from_hex (String "0" (String x s)) = unhex s.
Proof.
  intros Hx. unfold from_hex.
  assert (Hp : has_0x_prefix (String "0" (String x s)) = true).
  { unfold has_0x_prefix. rewrite Hx. reflexivity. }
  rewrite Hp.
  replace (String.length (String "0" (String x s)) - 2)%nat
    with (String.length s) by (cbn [String.length]; lia).
  change (String.substring 2 (String.length s) (String "0" (String x s)))
    with (String.substring 0 (String.length s) s).
  rewrite substring_whole. reflexivity.
Qed.

End UtilFacts.

(** C10. [to_hash] returns 32 bytes: the first [min (length b) 32] bytes of
    its argument, right-aligned behind [32 - min (length b) 32] zero bytes. A
    shorter argument is padded with zeros on the left, a longer one is cut
    after its first 32 bytes. *)
Theorem to_hash_right_aligned (b : Bytes) :
  let n := Nat.min (length b) 32 in
  length (Util.to_hash b) = 32%nat
  /\ Util.to_hash b = repeat x00 (32 - n) ++ firstn n b
  /\ firstn (32 - n) (Util.to_hash b) = repeat x00 (32 - n)
  /\ skipn (32 - n) (Util.to_hash b) = firstn 32 b.
Proof.
  intros n. pose proof (to_hash_eq b) as E.
  change Util.kHashLength with 32%nat in E. fold n in E.
  assert (Hlen : length (repeat x00 (32 - n)) = (32 - n)%nat) by apply repeat_length.
  assert (Hn : firstn n b = firstn 32 b).
  { subst n. destruct (Nat.le_ge_cases (length b) 32) as [H|H].
    - rewrite Nat.min_l by lia. rewrite !firstn_all2 by lia. reflexivity.
    - rewrite Nat.min_r by lia. reflexivity. }
  repeat split.
  - rewrite E, length_app, Hlen, length_firstn. subst n. lia.
  - exact E.
  - rewrite E. rewrite firstn_app, Hlen, Nat.sub_diag. simpl.
    rewrite app_nil_r. apply firstn_all2. lia.
  - rewrite E. rewrite skipn_app, Hlen, Nat.sub_diag. simpl.
    rewrite skipn_all2 by lia. exact Hn.
Qed.

(** C9. Hex round trip: [from_hex (to_hex b)] gives back [b], and so does
    [from_hex] of [to_hex b] behind a [0x] or [0X] prefix. *)
Theorem from_hex_to_hex (b : Bytes) :
  Util.from_hex (Util.to_hex b) = inr b
  /\ Util.from_hex ("0x" ++ Util.to_hex b)%string = inr b
  /\ Util.from_hex ("0X" ++ Util.to_hex b)%string = inr b.
Proof.
  repeat split.
  - unfold Util.from_hex. rewrite to_hex_no_prefix. apply unhex_to_hex.
  - change ("0x" ++ Util.to_hex b)%string with (String "0" (String "x" (Util.to_hex b))).
    rewrite from_hex_strips by reflexivity. apply unhex_to_hex.
  - change ("0X" ++ Util.to_hex b)%string with (String "0" (String "X" (Util.to_hex b))).
    rewrite from_hex_strips by reflexivity. apply unhex_to_hex.
Qed.

(** * Properties of the RLP integer decoders *)
Section RlpFacts.
Import Rlp.

(** What [decode_header] does on a short-string prefix [0x80 + n]. *)
Lemma decode_header_short_string (c : byte) (n : N) (tl : Bytes) :
  Byte.to_N c = 0x80 + n -> 2 <= n <= 55 ->
  decode_header (c :: tl) = inr ({| list := false; payload_length := n |}, tl).
Proof.
  intros Hc Hn. unfold decode_header. rewrite Hc.
  destruct (N.ltb_spec (0x80 + n) 0x80); [lia|].
  destruct (N.ltb_spec (0x80 + n) 0xB8); [|lia].
  replace (0x80 + n - 0x80) with n by lia.
  destruct (N.eqb_spec n 1); [lia|]. reflexivity.
Qed.





End RlpFacts.




(** * Properties of the BlockHashes stage *)
Section ContextFacts.
Import Kv Stages StageProps.

Lemma keys_distinct : kBlockBodiesKey <> kBlockHashesKey.
Proof. discriminate. Qed.

(** A second read of a watermark hits the cache. *)
Lemma get_progress_again (db db' : Db) (k : string) (c : SyncContext) :
  get_progress db' k (snd (get_progress db k c))
  = (fst (get_progress db k c), snd (get_progress db k c)).
Proof.
  unfold get_progress. destruct (progresses_ c !! k) eqn:E; cbn.
  - now rewrite E.
  - now rewrite lookup_insert_eq.
Qed.

(** Reading one watermark does not change what is read for another. *)
Lemma get_progress_other (db db' : Db) (k k' : string) (c : SyncContext) :
  k <> k' ->
  fst (get_progress db' k' (snd (get_progress db k c))) = fst (get_progress db' k' c).
Proof.
  intros Hne. unfold get_progress at 2.
  destruct (progresses_ c !! k) eqn:E; cbn; [reflexivity|].
  unfold get_progress. cbn. rewrite lookup_insert_ne by assumption.
  now destruct (progresses_ c !! k').
Qed.

Lemma get_progress_unwind_height (db : Db) (k : string) (c : SyncContext) :
  unwind_height_ (snd (get_progress db k c)) = unwind_height_ c.
Proof. unfold get_progress. now destruct (progresses_ c !! k). Qed.

(** The reads of [forward] leave every watermark as it was. *)
Lemma progress_after_reads (tx_mgr : TransactionManager) (c : SyncContext) (k : string) :
  progress tx_mgr (after_reads tx_mgr c) k = progress tx_mgr c k.
Proof.
  unfold progress, after_reads.
  destruct (decide (k = kBlockHashesKey)) as [->|Hh].
  - rewrite get_progress_again. cbn.
    apply get_progress_other, keys_distinct.
  - rewrite get_progress_other by congruence.
    destruct (decide (k = kBlockBodiesKey)) as [->|Hb].
    + now rewrite get_progress_again.
    + apply get_progress_other. congruence.
Qed.

End ContextFacts.

Section ForwardFacts.
Import Kv Stages StageProps.

(** [forward] in terms of the watermarks it reads. *)
Lemma forward_eq (ordinal : N) (tx_mgr : TransactionManager) (context : SyncContext) :
  forward (StageBlockHashes ordinal) tx_mgr context
  = let progress_bodies := progress tx_mgr context kBlockBodiesKey in
    let start := first_block (progress tx_mgr context kBlockHashesKey) in
    let context' := after_reads tx_mgr context in
    match forward_loop (find (CanonicalHashes (txn tx_mgr)) (block_key start))
                       start 0 Etl.new_collector with
    | inl result => (result, tx_mgr, context')
    | inr (block_number, collector) =>
        if negb (block_number =? progress_bodies)
        then (kBadChainSequence, tx_mgr, context')
        else if Etl.empty collector then (kSuccess, tx_mgr, context')
        else
          let flags :=
            if ms_entries (HeaderNumbers (txn tx_mgr)) =? 0
            then MDBX_APPEND else MDBX_UPSERT in
          match Etl.load collector (HeaderNumbers (txn tx_mgr)) flags with
          | None => (kDbError, tx_mgr, context')
          | Some loaded =>
              (kSuccess,
               commit
                 (write_stage_progress
                    (mkTx (committed tx_mgr) (set_HeaderNumbers loaded (txn tx_mgr))
                       (journal tx_mgr
                        ++ map (fun e => OpPut flags (fst e) (snd e))
                             (Etl.sorted_entries collector)))
                    kBlockHashesKey block_number),
               set_progresses_
                 (<[kBlockHashesKey := block_number]> (progresses_ context')) context')
          end
    end.
Proof.
  unfold forward, StageBlockHashes, StageBlockHashes_forward. cbn [forward_impl self stage_key_].
  unfold progress, after_reads, first_block.
  pose proof (get_progress_other (txn tx_mgr) (txn tx_mgr) _ _ context keys_distinct) as Ho.
  destruct (get_progress (txn tx_mgr) kBlockBodiesKey context) as [pb c1]. cbn [fst snd] in *.
  destruct (get_progress (txn tx_mgr) kBlockHashesKey c1) as [p c2]. cbn [fst snd] in *.
  subst p. cbv zeta.
  destruct (forward_loop _ _ _ _) as [r|[bn col]]; [reflexivity|].
  destruct (negb (bn =? pb)); [reflexivity|].
  destruct (Etl.empty col); [reflexivity|].
  destruct (Etl.load _ _ _); reflexivity.
Qed.

(** Entries that pass the checks are collected, key and value swapped. *)
Lemma forward_loop_app (pre suf : Table) (expected block_number : BlockNum)
    (collector : Etl.Collector) :
  in_sequence pre expected = true ->
  forward_loop (pre ++ suf) expected block_number collector
  = forward_loop suf (expected_after pre expected)
      (match last pre with
       | Some (key, _) => load_big_u64 key
       | None => block_number
       end)
      (collector ++ map (fun e => (snd e, fst e)) pre).
Proof.
  revert expected block_number collector.
  induction pre as [|[key value] pre IH]; intros expected block_number collector Hseq.
  - cbn. now rewrite app_nil_r.
  - cbn [in_sequence] in Hseq.
    apply andb_prop in Hseq as [Hseq Hrest]. apply andb_prop in Hseq as [Hkey Hlen].
    cbn [app forward_loop expected_after]. rewrite Hkey, Hlen. cbn [negb].
    rewrite IH by assumption. unfold Etl.collect.
    cbn [map fst snd]. rewrite <- app_assoc. cbn [app].
    rewrite last_cons. now destruct (last pre) as [[k v]|].
Qed.

End ForwardFacts.

Section ForwardJournal.
Import Kv Stages StageProps.

Lemma put_flags_app (a b : list Op) : put_flags (a ++ b) = put_flags a ++ put_flags b.
Proof. unfold put_flags. apply flat_map_app. Qed.

Lemma put_flags_map_OpPut (flags : MDBX_put_flags_t) (es : list Entry) :
  put_flags (map (fun e => OpPut flags (fst e) (snd e)) es) = repeat flags (length es).
Proof. induction es as [|e es IH]; cbn; [reflexivity | now rewrite <- IH]. Qed.

End ForwardJournal.

(** C3. When the source cursor of [forward] comes to an entry whose key,
    decoded big-endian, is not the block number awaited next, [forward]
    returns [kBadChainSequence]; the transaction is left as it was (nothing
    written, nothing committed) and every watermark reads as before. *)
Theorem forward_out_of_sequence
    (ordinal : N) (tx_mgr : Kv.TransactionManager) (context : Stages.SyncContext)
    (pre rest : Kv.Table) (key value : Bytes) :
  let start :=
    StageProps.first_block (StageProps.progress tx_mgr context Stages.kBlockHashesKey) in
  Kv.find (Kv.CanonicalHashes (Kv.txn tx_mgr)) (Kv.block_key start)
    = pre ++ (key, value) :: rest ->
  StageProps.keys_8 (pre ++ [(key, value)]) ->
  StageProps.in_sequence pre start = true ->
  Kv.load_big_u64 key <> StageProps.expected_after pre start ->
  Stages.forward (Stages.StageBlockHashes ordinal) tx_mgr context
    = (Stages.kBadChainSequence, tx_mgr, StageProps.after_reads tx_mgr context)
  /\ forall k, StageProps.progress tx_mgr (StageProps.after_reads tx_mgr context) k
               = StageProps.progress tx_mgr context k.
Proof.
  intros start Hfind _ Hseq Hkey. split; [|intros k; apply progress_after_reads].
  rewrite forward_eq. cbv zeta. fold start. rewrite Hfind.
  rewrite forward_loop_app by assumption.
  cbn [Stages.forward_loop].
  destruct (N.eqb_spec (Kv.load_big_u64 key) (StageProps.expected_after pre start));
    [contradiction | reflexivity].
Qed.

Lemma forward_out_of_sequence_witness :
  let tx := StageProps.open_tx
              (StageProps.db_of [(Kv.block_key 0, StageProps.hash_11);
                                 (Kv.block_key 2, StageProps.hash_aa)] [] 2 0) in
  Stages.forward (Stages.StageBlockHashes 1) tx StageProps.fresh_context
  = (Stages.kBadChainSequence, tx, StageProps.after_reads tx StageProps.fresh_context).
Proof.
  intros tx.
  refine (proj1 (forward_out_of_sequence 1 tx StageProps.fresh_context
                   [(Kv.block_key 0, StageProps.hash_11)] []
                   (Kv.block_key 2) StageProps.hash_aa _ _ _ _)).
  - vm_compute. reflexivity.
  - repeat constructor.
  - vm_compute. reflexivity.
  - vm_compute. discriminate.
Defined.

(** C4. When the source cursor of [forward] comes to an entry that is in
    sequence but whose value has not 32 bytes, [forward] returns
    [kBadBlockHash]; the transaction is left as it was (nothing written,
    nothing committed) and every watermark reads as before. *)
Theorem forward_bad_hash_length
    (ordinal : N) (tx_mgr : Kv.TransactionManager) (context : Stages.SyncContext)
    (pre rest : Kv.Table) (key value : Bytes) :
  let start :=
    StageProps.first_block (StageProps.progress tx_mgr context Stages.kBlockHashesKey) in
  Kv.find (Kv.CanonicalHashes (Kv.txn tx_mgr)) (Kv.block_key start)
    = pre ++ (key, value) :: rest ->
  StageProps.keys_8 (pre ++ [(key, value)]) ->
  StageProps.in_sequence pre start = true ->
  Kv.load_big_u64 key = StageProps.expected_after pre start ->
  length value <> 32%nat ->
  Stages.forward (Stages.StageBlockHashes ordinal) tx_mgr context
    = (Stages.kBadBlockHash, tx_mgr, StageProps.after_reads tx_mgr context)
  /\ forall k, StageProps.progress tx_mgr (StageProps.after_reads tx_mgr context) k
               = StageProps.progress tx_mgr context k.
Proof.
  intros start Hfind _ Hseq Hkey Hlen. split; [|intros k; apply progress_after_reads].
  rewrite forward_eq. cbv zeta. fold start. rewrite Hfind.
  rewrite forward_loop_app by assumption.
  cbn [Stages.forward_loop]. rewrite Hkey, N.eqb_refl. cbn [negb].
  destruct (Nat.eqb_spec (length value) Util.kHashLength); [contradiction | reflexivity].
Qed.

Lemma forward_bad_hash_length_witness :
  let tx := StageProps.open_tx
              (StageProps.db_of [(Kv.block_key 0, StageProps.hash_11);
                                 (Kv.block_key 1, repeat xaa 31)] [] 1 0) in
  Stages.forward (Stages.StageBlockHashes 1) tx StageProps.fresh_context
  = (Stages.kBadBlockHash, tx, StageProps.after_reads tx StageProps.fresh_context).
Proof.
  intros tx.
  refine (proj1 (forward_bad_hash_length 1 tx StageProps.fresh_context
                   [(Kv.block_key 0, StageProps.hash_11)] []
                   (Kv.block_key 1) (repeat xaa 31) _ _ _ _ _)).
  - vm_compute. reflexivity.
  - repeat constructor.
  - vm_compute. reflexivity.
  - vm_compute. reflexivity.
  - vm_compute. discriminate.
Defined.

(** C4 without the sequence condition fails: the length test is the second
    test of the loop body. With CanonicalHashes
    [{0 -> 0x11.., 2 -> 31 bytes of 0xaa}], [progress(Bodies) = 2] and
    [progress(BlockHashes) = 0], the cursor comes to the entry of key 2 while
    block 1 is awaited; its value has 31 bytes, and [forward] returns
    [kBadChainSequence], not [kBadBlockHash]. *)
Lemma forward_short_hash_out_of_sequence :
  let short := repeat xaa 31 in
  let tx := StageProps.open_tx
              (StageProps.db_of [(Kv.block_key 0, StageProps.hash_11);
                                 (Kv.block_key 2, short)] [] 2 0) in
  let result := Stages.forward (Stages.StageBlockHashes 1) tx StageProps.fresh_context in
  Kv.find (Kv.CanonicalHashes (Kv.txn tx)) (Kv.block_key 0)
    = [(Kv.block_key 0, StageProps.hash_11); (Kv.block_key 2, short)]
  /\ length short <> 32%nat
  /\ Kv.load_big_u64 (Kv.block_key 2) <> 1
  /\ fst (fst result) = Stages.kBadChainSequence
  /\ fst (fst result) <> Stages.kBadBlockHash
  /\ snd (fst result) = tx.
Proof. vm_compute. repeat split; discriminate. Qed.

(** C7. A stage of a class that does not override [prune] answers [kSuccess]
    and leaves the transaction and the context untouched: no write is issued.
    [StageBlockHashes] is such a class, and is built with
    [has_pruning = false]. *)
Theorem prune_not_overridden
    (s : Stages.Stage) (tx_mgr : Kv.TransactionManager) (context : Stages.SyncContext) :
  Stages.prune_override s = None ->
  Stages.prune s tx_mgr context = (Stages.kSuccess, tx_mgr, context).
Proof. intros H. unfold Stages.prune. now rewrite H. Qed.

Lemma prune_not_overridden_witness :
  Stages.has_pruning (Stages.StageBlockHashes 1) = false
  /\ Stages.prune (Stages.StageBlockHashes 1)
       (StageProps.open_tx (StageProps.db_of (StageProps.canonical_0_3 StageProps.hash_11) [] 3 0))
       StageProps.fresh_context
     = (Stages.kSuccess,
        StageProps.open_tx (StageProps.db_of (StageProps.canonical_0_3 StageProps.hash_11) [] 3 0),
        StageProps.fresh_context).
Proof.
  split; [reflexivity|].
  apply (prune_not_overridden (Stages.StageBlockHashes 1)). reflexivity.
Defined.

Section UnwindFacts.
Import Kv Stages StageProps.

(** [unwind] in terms of the watermark it reads and of the unwind height. *)
Lemma unwind_eq (ordinal : N) (tx_mgr : TransactionManager) (context : SyncContext) :
  unwind (StageBlockHashes ordinal) tx_mgr context
  = let context' := snd (get_progress (txn tx_mgr) kBlockHashesKey context) in
    match unwind_height_ context with
    | None => (kSuccess, tx_mgr, context')
    | Some h =>
        if progress tx_mgr context kBlockHashesKey <=? h
        then (kSuccess, tx_mgr, context')
        else
          match unwind_loop
                  (find (CanonicalHashes (txn tx_mgr)) (block_key (first_block h)))
                  (first_block h) tx_mgr with
          | (Some result, tx_mgr) => (result, tx_mgr, context')
          | (None, tx_mgr) =>
              (kSuccess,
               commit (write_stage_progress tx_mgr kBlockHashesKey h),
               set_progresses_ (<[kBlockHashesKey := h]> (progresses_ context')) context')
          end
    end.
Proof.
  unfold unwind, StageBlockHashes, StageBlockHashes_unwind. cbn [unwind_impl self stage_key_].
  unfold progress, first_block, needs_unwind.
  pose proof (get_progress_unwind_height (txn tx_mgr) kBlockHashesKey context) as Hh.
  destruct (get_progress (txn tx_mgr) kBlockHashesKey context) as [p c1]. cbn [fst snd] in *.
  rewrite Hh. destruct (unwind_height_ context) as [h|]; [|reflexivity].
  destruct (p <=? h); [reflexivity|]. cbn [negb].
  destruct (unwind_loop _ _ _) as [[r|] tx2]; reflexivity.
Qed.

(** The loop of [unwind] never leaves early with [kSuccess]. *)
Lemma unwind_loop_early (source_data : Table) (expected : BlockNum)
    (tx_mgr : TransactionManager) :
  fst (unwind_loop source_data expected tx_mgr) <> Some kSuccess.
Proof.
  revert expected tx_mgr.
  induction source_data as [|[key value] rest IH]; intros expected tx_mgr; cbn.
  - discriminate.
  - destruct (negb (load_big_u64 key =? expected)); [discriminate|].
    destruct (negb (length value =? Util.kHashLength)%nat); [discriminate|]. apply IH.
Qed.

(** Whether the loop of [unwind] completes is decided by the source table
    alone: what HeaderNumbers holds plays no part. *)
Lemma unwind_loop_result (source_data : Table) (expected : BlockNum)
    (tx1 tx2 : TransactionManager) :
  fst (unwind_loop source_data expected tx1) = fst (unwind_loop source_data expected tx2).
Proof.
  revert expected tx1 tx2.
  induction source_data as [|[key value] rest IH]; intros expected tx1 tx2; cbn.
  - reflexivity.
  - destruct (negb (load_big_u64 key =? expected)); [reflexivity|].
    destruct (negb (length value =? Util.kHashLength)%nat); [reflexivity|]. apply IH.
Qed.

Lemma unwind_result_any_target (ordinal : N) (tx_mgr : TransactionManager)
    (context : SyncContext) (t : Table) :
  fst (fst (unwind (StageBlockHashes ordinal) (with_HeaderNumbers t tx_mgr) context))
  = fst (fst (unwind (StageBlockHashes ordinal) tx_mgr context)).
Proof.
  rewrite !unwind_eq. cbv zeta.
  change (progress (with_HeaderNumbers t tx_mgr) context kBlockHashesKey)
    with (progress tx_mgr context kBlockHashesKey).
  change (CanonicalHashes (txn (with_HeaderNumbers t tx_mgr)))
    with (CanonicalHashes (txn tx_mgr)).
  destruct (unwind_height_ context) as [h|]; [|reflexivity].
  destruct (_ <=? h); [reflexivity|].
  pose proof (unwind_loop_result
                (find (CanonicalHashes (txn tx_mgr)) (block_key (first_block h)))
                (first_block h) (with_HeaderNumbers t tx_mgr) tx_mgr) as Hr.
  destruct (unwind_loop _ _ (with_HeaderNumbers t tx_mgr)) as [[r1|] ta];
    destruct (unwind_loop _ _ tx_mgr) as [[r2|] tb]; cbn in Hr; try discriminate.
  - now inversion Hr.
  - reflexivity.
Qed.

(** An inverse entry that is missing is passed over. *)
Lemma delete_mapping_missing (tx_mgr : TransactionManager) (hash : Bytes) :
  seek (HeaderNumbers (txn tx_mgr)) hash = false -> delete_mapping tx_mgr hash = tx_mgr.
Proof. intros H. unfold delete_mapping. now rewrite H. Qed.

End UnwindFacts.

(** C6. [unwind] is idempotent. After a call that returned [kSuccess], a
    second call returns [kSuccess] and changes neither the transaction (so
    neither HeaderNumbers nor the watermark) nor the context. When the first
    call had work to do (the unwind height [h] was below the watermark), it
    leaves the watermark at [h] and the unwind height in place. An inverse
    entry that HeaderNumbers lacks is passed over, and the call succeeds
    whatever HeaderNumbers holds. *)
Theorem unwind_idempotent
    (ordinal : N) (tx_mgr tx_mgr' : Kv.TransactionManager)
    (context context' : Stages.SyncContext) :
  Stages.unwind (Stages.StageBlockHashes ordinal) tx_mgr context
    = (Stages.kSuccess, tx_mgr', context') ->
  Stages.unwind (Stages.StageBlockHashes ordinal) tx_mgr' context'
    = (Stages.kSuccess, tx_mgr', context')
  /\ (forall h,
        Stages.unwind_height_ context = Some h ->
        h < StageProps.progress tx_mgr context Stages.kBlockHashesKey ->
        StageProps.progress tx_mgr' context' Stages.kBlockHashesKey = h
        /\ Kv.read_stage_progress (Kv.committed tx_mgr') Stages.kBlockHashesKey = h
        /\ Stages.unwind_height_ context' = Some h)
  /\ (forall t : Kv.Table,
        fst (fst (Stages.unwind (Stages.StageBlockHashes ordinal)
                    (StageProps.with_HeaderNumbers t tx_mgr) context))
        = Stages.kSuccess)
  /\ (forall hash,
        Kv.seek (Kv.HeaderNumbers (Kv.txn tx_mgr)) hash = false ->
        Stages.delete_mapping tx_mgr hash = tx_mgr).
Proof.
  intros Hfirst.
  split; [|split; [|split]].
  - rewrite unwind_eq in Hfirst. cbv zeta in Hfirst.
    rewrite unwind_eq. cbv zeta.
    destruct (Stages.unwind_height_ context) as [h|] eqn:Hh.
    + destruct (N.leb_spec (StageProps.progress tx_mgr context Stages.kBlockHashesKey) h)
        as [Hle|Hlt].
      * inversion Hfirst; subst tx_mgr' context'. clear Hfirst.
        rewrite get_progress_unwind_height, Hh.
        unfold StageProps.progress. rewrite get_progress_again. cbn [fst snd].
        fold (StageProps.progress tx_mgr context Stages.kBlockHashesKey).
        destruct (N.leb_spec (StageProps.progress tx_mgr context Stages.kBlockHashesKey) h);
          [reflexivity | lia].
      * destruct (Stages.unwind_loop _ _ _) as [[r|] tx2] eqn:Hloop.
        { inversion Hfirst; subst.
          pose proof (unwind_loop_early
                        (Kv.find (Kv.CanonicalHashes (Kv.txn tx_mgr))
                           (Kv.block_key (StageProps.first_block h)))
                        (StageProps.first_block h) tx_mgr) as Hne.
          rewrite Hloop in Hne. now contradiction Hne. }
        inversion Hfirst; subst tx_mgr' context'. clear Hfirst.
        pose proof (get_progress_unwind_height (Kv.txn tx_mgr) Stages.kBlockHashesKey context)
          as Hu.
        rewrite Hh in Hu.
        set (c1 := snd (Stages.get_progress (Kv.txn tx_mgr) Stages.kBlockHashesKey context))
          in *.
        unfold StageProps.progress, Stages.get_progress.
        cbn [Stages.progresses_ Stages.set_progresses_ Stages.unwind_height_].
        rewrite lookup_insert_eq. cbn [fst snd Stages.unwind_height_].
        rewrite Hu, N.leb_refl. reflexivity.
    + inversion Hfirst; subst tx_mgr' context'. clear Hfirst.
      now rewrite get_progress_unwind_height, Hh, get_progress_again.
  - intros h Hh Hlt.
    rewrite unwind_eq in Hfirst. cbv zeta in Hfirst. rewrite Hh in Hfirst.
    destruct (N.leb_spec (StageProps.progress tx_mgr context Stages.kBlockHashesKey) h);
      [lia|].
    destruct (Stages.unwind_loop _ _ _) as [[r|] tx2] eqn:Hloop; inversion Hfirst; subst.
    { pose proof (unwind_loop_early
                    (Kv.find (Kv.CanonicalHashes (Kv.txn tx_mgr))
                       (Kv.block_key (StageProps.first_block h)))
                    (StageProps.first_block h) tx_mgr) as Hne.
      rewrite Hloop in Hne. now contradiction Hne. }
    pose proof (get_progress_unwind_height (Kv.txn tx_mgr) Stages.kBlockHashesKey context)
      as Hu.
    rewrite Hh in Hu.
    set (c1 := snd (Stages.get_progress (Kv.txn tx_mgr) Stages.kBlockHashesKey context)) in *.
    unfold StageProps.progress, Stages.get_progress, Kv.read_stage_progress,
      Kv.commit, Kv.write_stage_progress, Kv.set_SyncStageProgress.
    cbn [Stages.progresses_ Stages.set_progresses_ Stages.unwind_height_
         Kv.committed Kv.txn Kv.SyncStageProgress].
    rewrite !lookup_insert_eq. cbn [fst snd default Stages.unwind_height_]. auto.
  - intros t. rewrite unwind_result_any_target, Hfirst. reflexivity.
  - apply delete_mapping_missing.
Qed.

Lemma unwind_idempotent_witness :
  let stage := Stages.StageBlockHashes 1 in
  let tx := StageProps.open_tx
              (StageProps.db_of (StageProps.canonical_0_3 StageProps.hash_11)
                 ((StageProps.hash_11, Kv.block_key 0) :: StageProps.inverse_1_3) 3 3) in
  let first := Stages.unwind stage tx (StageProps.unwinding_to 1) in
  Kv.HeaderNumbers (Kv.txn (snd (fst first)))
    = [(StageProps.hash_11, Kv.block_key 0); (StageProps.hash_aa, Kv.block_key 1)]
  /\ Stages.unwind stage (snd (fst first)) (snd first)
     = (Stages.kSuccess, snd (fst first), snd first)
  /\ fst (fst (Stages.unwind stage (StageProps.with_HeaderNumbers [] tx)
                 (StageProps.unwinding_to 1)))
     = Stages.kSuccess.
Proof.
  intros stage tx first.
  assert (Hfirst : Stages.unwind stage tx (StageProps.unwinding_to 1)
                   = (Stages.kSuccess, snd (fst first), snd first))
    by (vm_compute; reflexivity).
  pose proof (unwind_idempotent 1 tx _ (StageProps.unwinding_to 1) _ Hfirst) as H.
  split; [vm_compute; reflexivity|].
  split; [exact (proj1 H) | exact (proj1 (proj2 (proj2 H)) [])].
Defined.

(** * The key order and the load of a collector *)
Section LoadFacts.
Import Kv Etl StageProps.

Lemma byte_to_N_inj (x y : byte) : Byte.to_N x = Byte.to_N y -> x = y.
Proof.
  intros H. pose proof (Byte.of_to_N x) as Hx. rewrite H, Byte.of_to_N in Hx.
  now inversion Hx.
Qed.

Lemma bytes_compare_eq (a b : Bytes) : bytes_compare a b = Eq -> a = b.
Proof.
  revert b. induction a as [|x a IH]; intros [|y b] H; cbn in H;
    try discriminate; [reflexivity|].
  destruct (Byte.to_N x ?= Byte.to_N y) eqn:E; try discriminate.
  apply N.compare_eq in E. apply byte_to_N_inj in E. subst y.
  f_equal. now apply IH.
Qed.

Lemma bytes_compare_antisym (a b : Bytes) :
  bytes_compare b a = CompOpp (bytes_compare a b).
Proof.
  revert b. induction a as [|x a IH]; intros [|y b]; cbn; try reflexivity.
  rewrite (N.compare_antisym (Byte.to_N x) (Byte.to_N y)).
  destruct (Byte.to_N x ?= Byte.to_N y); cbn; auto.
Qed.

Lemma entry_compare_antisym (a b : Entry) :
  entry_compare b a = CompOpp (entry_compare a b).
Proof.
  unfold entry_compare.
  rewrite (bytes_compare_antisym (fst a) (fst b)).
  destruct (bytes_compare (fst a) (fst b)); cbn; auto using bytes_compare_antisym.
Qed.

#[local] Instance entry_le_total : Total entry_le.
Proof.
  intros a b. unfold entry_le. rewrite (entry_compare_antisym a b).
  destruct (entry_compare a b); cbn; auto.
Qed.

Lemma entry_le_key_lt (a b : Entry) : entry_le a b -> fst a <> fst b -> key_lt a b.
Proof.
  unfold entry_le, entry_compare, key_lt, bytes_ltb. intros Hle Hne.
  destruct (bytes_compare (fst a) (fst b)) eqn:E.
  - now apply bytes_compare_eq in E.
  - reflexivity.
  - contradiction.
Qed.

(** Entries sorted by (key, value) whose keys are pairwise distinct have
    strictly increasing keys. *)
Lemma sorted_distinct_keys (l : list Entry) :
  Sorted entry_le l -> NoDup (map fst l) -> Sorted key_lt l.
Proof.
  induction 1 as [|a l Hs IH Hhd]; intros Hnd; [constructor|].
  cbn in Hnd. apply NoDup_cons in Hnd as [Hnotin Hnd].
  constructor; [auto|].
  destruct Hhd as [|b l Hab]; constructor.
  apply entry_le_key_lt; [assumption|].
  intros Heq. apply Hnotin. cbn. rewrite Heq. apply list_elem_of_here.
Qed.

Lemma sorted_adjacent {A} (R : relation A) (l1 l2 : list A) (a b : A) :
  Sorted R (l1 ++ a :: b :: l2) -> R a b.
Proof.
  induction l1 as [|x l1 IH]; cbn; intros H; apply Sorted_inv in H as [Hs Hhd].
  - now inversion Hhd.
  - auto.
Qed.

(** Appending entries whose keys go on increasing is never refused. *)
Lemma put_all_append (es : list Entry) (t : Table) :
  Sorted key_lt (t ++ es) -> put_all MDBX_APPEND t es = Some (t ++ es).
Proof.
  revert t. induction es as [|[k v] es IH]; intros t Hs; cbn [put_all].
  - now rewrite app_nil_r.
  - assert (Hput : put MDBX_APPEND t k v = Some (t ++ [(k, v)])).
    { cbn [put]. unfold append. destruct (last t) as [[k' v']|] eqn:Hlast.
      - apply last_Some in Hlast as [t0 ->].
        rewrite <- app_assoc in Hs. cbn [app] in Hs.
        apply sorted_adjacent in Hs. unfold key_lt in Hs. cbn in Hs. now rewrite Hs.
      - apply last_None in Hlast. now subst t. }
    rewrite Hput. rewrite IH; rewrite <- app_assoc; [reflexivity | exact Hs].
Qed.

(** Into an empty table, a collector whose keys are pairwise distinct is
    loaded in [MDBX_APPEND] mode as its sorted sequence. *)
Lemma load_append_empty (c : Collector) :
  NoDup (map fst c) -> load c [] MDBX_APPEND = Some (sorted_entries c).
Proof.
  intros Hnd. unfold load. apply (put_all_append (sorted_entries c) []). cbn [app].
  apply sorted_distinct_keys.
  - apply Sorted_merge_sort, _.
  - unfold sorted_entries.
    now rewrite (merge_sort_Permutation entry_le c).
Qed.

End LoadFacts.

Section HappyPath.
Import Kv Stages StageProps.

Lemma inverse_keys_distinct (h0 : Bytes) :
  ~ In h0 [hash_aa; hash_bb; hash_cc] ->
  NoDup (map fst ((h0, block_key 0) :: inverse_1_3)).
Proof.
  intros Hh0. cbn [map fst inverse_1_3].
  apply NoDup_cons. split.
  - intros Hin. apply Hh0. now apply list_elem_of_In.
  - repeat (apply NoDup_cons; split);
      [ | | | apply NoDup_nil; exact I ];
      rewrite list_elem_of_In; cbn; intuition discriminate.
Qed.

Lemma forward_loop_genesis_chain (h0 : Bytes) :
  length h0 = 32%nat ->
  forward_loop (canonical_0_3 h0) 0 0 Etl.new_collector
  = inr (3, (h0, block_key 0) :: inverse_1_3).
Proof.
  intros Hlen.
  rewrite <- (app_nil_r (canonical_0_3 h0)).
  rewrite forward_loop_app.
  - reflexivity.
  - change (in_sequence (canonical_0_3 h0) 0)
      with ((load_big_u64 (block_key 0) =? 0)
            && (length h0 =? Util.kHashLength)%nat
            && in_sequence canonical_1_3 (wrap64 (0 + 1))).
    rewrite Hlen. vm_compute. reflexivity.
Qed.

End HappyPath.

(** C1, as the code has it. With watermark 0 the stage starts at block 0, so
    the happy path needs the genesis entry: if CanonicalHashes is
    [{0 -> h0, 1 -> 0xaa.., 2 -> 0xbb.., 3 -> 0xcc..}] with [h0] a 32-byte hash
    other than the three, HeaderNumbers is empty, [progress(Bodies) = 3] and
    [progress(BlockHashes) = 0], then [forward] returns [kSuccess],
    HeaderNumbers holds exactly
    [{h0 -> 0, 0xaa.. -> 1, 0xbb.. -> 2, 0xcc.. -> 3}], the transaction is
    committed and [progress(BlockHashes) = 3]. *)
Theorem forward_happy_path
    (ordinal : N) (tx_mgr : Kv.TransactionManager) (context : Stages.SyncContext)
    (h0 : Bytes) :
  Kv.CanonicalHashes (Kv.txn tx_mgr) = StageProps.canonical_0_3 h0 ->
  Kv.HeaderNumbers (Kv.txn tx_mgr) = [] ->
  length h0 = 32%nat ->
  ~ In h0 [StageProps.hash_aa; StageProps.hash_bb; StageProps.hash_cc] ->
  StageProps.progress tx_mgr context Stages.kBlockBodiesKey = 3 ->
  StageProps.progress tx_mgr context Stages.kBlockHashesKey = 0 ->
  exists tx_mgr' context',
    Stages.forward (Stages.StageBlockHashes ordinal) tx_mgr context
      = (Stages.kSuccess, tx_mgr', context')
    /\ Permutation (Kv.HeaderNumbers (Kv.txn tx_mgr'))
         ((h0, Kv.block_key 0) :: StageProps.inverse_1_3)
    /\ Sorted StageProps.key_lt (Kv.HeaderNumbers (Kv.txn tx_mgr'))
    /\ Kv.CanonicalHashes (Kv.txn tx_mgr') = StageProps.canonical_0_3 h0
    /\ Kv.committed tx_mgr' = Kv.txn tx_mgr'
    /\ StageProps.progress tx_mgr' context' Stages.kBlockHashesKey = 3
    /\ Kv.read_stage_progress (Kv.committed tx_mgr') Stages.kBlockHashesKey = 3.
Proof.
  intros Hcanon Hempty Hlen Hh0 Hbodies Hhashes.
  pose proof (inverse_keys_distinct h0 Hh0) as Hnd.
  eexists _, _. split.
  - rewrite forward_eq. cbv zeta. rewrite Hbodies, Hhashes, Hcanon, Hempty.
    change (StageProps.first_block 0) with 0.
    change (Kv.find (StageProps.canonical_0_3 h0) (Kv.block_key 0))
      with (StageProps.canonical_0_3 h0).
    rewrite forward_loop_genesis_chain by assumption.
    change (negb (3 =? 3)) with false. cbv iota.
    change (Etl.empty ((h0, Kv.block_key 0) :: StageProps.inverse_1_3)) with false.
    change (Kv.ms_entries [] =? 0) with true. cbv iota.
    rewrite load_append_empty by assumption.
    reflexivity.
  - cbn [Kv.commit Kv.write_stage_progress Kv.txn Kv.committed Kv.set_HeaderNumbers
         Kv.set_SyncStageProgress Kv.HeaderNumbers Kv.CanonicalHashes].
    assert (Hperm : Permutation
                      (Etl.sorted_entries ((h0, Kv.block_key 0) :: StageProps.inverse_1_3))
                      ((h0, Kv.block_key 0) :: StageProps.inverse_1_3))
      by apply merge_sort_Permutation.
    repeat split.
    + exact Hperm.
    + apply sorted_distinct_keys.
      * apply Sorted_merge_sort, entry_le_total.
      * now rewrite Hperm.
    + exact Hcanon.
    + unfold StageProps.progress, Stages.get_progress.
      cbn [Stages.progresses_ Stages.set_progresses_].
      rewrite lookup_insert_eq. reflexivity.
    + unfold Kv.read_stage_progress, Kv.commit, Kv.write_stage_progress,
        Kv.set_SyncStageProgress.
      cbn [Kv.committed Kv.txn Kv.SyncStageProgress].
      rewrite lookup_insert_eq. reflexivity.
Qed.

Lemma forward_happy_path_witness :
  let tx := StageProps.open_tx
              (StageProps.db_of (StageProps.canonical_0_3 StageProps.hash_11) [] 3 0) in
  exists tx' context',
    Stages.forward (Stages.StageBlockHashes 1) tx StageProps.fresh_context
      = (Stages.kSuccess, tx', context')
    /\ Kv.HeaderNumbers (Kv.txn tx')
       = (StageProps.hash_11, Kv.block_key 0) :: StageProps.inverse_1_3
    /\ StageProps.progress tx' context' Stages.kBlockHashesKey = 3.
Proof.
  intros tx.
  destruct (forward_happy_path 1 tx StageProps.fresh_context StageProps.hash_11)
    as (tx' & context' & Hfwd & _ & _ & _ & _ & Hprogress & _).
  - reflexivity.
  - reflexivity.
  - reflexivity.
  - cbn. intuition discriminate.
  - vm_compute. reflexivity.
  - vm_compute. reflexivity.
  - exists tx', context'. split; [exact Hfwd|]. split; [|exact Hprogress].
    assert (Htx : tx' = snd (fst (Stages.forward (Stages.StageBlockHashes 1) tx
                                    StageProps.fresh_context)))
      by (rewrite Hfwd; reflexivity).
    rewrite Htx. vm_compute. reflexivity.
Defined.

(** C1 as stated fails: with CanonicalHashes exactly
    [{1 -> 0xaa.., 2 -> 0xbb.., 3 -> 0xcc..}], [progress(Bodies) = 3] and
    [progress(BlockHashes) = 0], the cursor is sent to block 0, finds
    nothing, and [forward] returns [kBadChainSequence]; HeaderNumbers stays
    empty and the watermark stays 0. *)
Lemma forward_without_genesis :
  let tx := StageProps.open_tx (StageProps.db_of StageProps.canonical_1_3 [] 3 0) in
  let result := Stages.forward (Stages.StageBlockHashes 1) tx StageProps.fresh_context in
  StageProps.progress tx StageProps.fresh_context Stages.kBlockBodiesKey = 3
  /\ StageProps.progress tx StageProps.fresh_context Stages.kBlockHashesKey = 0
  /\ fst (fst result) = Stages.kBadChainSequence
  /\ fst (fst result) <> Stages.kSuccess
  /\ Kv.HeaderNumbers (Kv.txn (snd (fst result))) = []
  /\ StageProps.progress (snd (fst result)) (snd result) Stages.kBlockHashesKey = 0.
Proof. vm_compute. repeat split; discriminate. Qed.

Section EmptyRange.
Import Kv Stages StageProps.

Lemma find_length (t : Table) (key : Bytes) : (length (find t key) <= length t)%nat.
Proof.
  induction t as [|[k v] t IH]; cbn; [lia|].
  destruct (bytes_eqb k key); cbn; lia.
Qed.

Lemma wrap64_small (n : N) : n < 2 ^ 64 -> wrap64 n = n.
Proof. apply N.mod_small. Qed.

Lemma wrap64_lt (n : N) : wrap64 n < 2 ^ 64.
Proof. apply N.mod_lt. discriminate. Qed.

Lemma wrap64_succ (e m : N) : wrap64 (wrap64 (e + 1) + m) = wrap64 (e + (m + 1)).
Proof.
  unfold wrap64. rewrite N.Div0.add_mod_idemp_l. f_equal. lia.
Qed.

(** The loop only returns early with one of its two error codes. *)
Lemma forward_loop_early (source_data : Table) (expected block_number : BlockNum)
    (collector : Etl.Collector) (result : StageResult) :
  forward_loop source_data expected block_number collector = inl result ->
  result = kBadChainSequence \/ result = kBadBlockHash.
Proof.
  revert expected block_number collector.
  induction source_data as [|[key value] rest IH];
    intros expected block_number collector H; cbn in H; [discriminate|].
  destruct (negb (load_big_u64 key =? expected)); [inversion H; auto|].
  destruct (negb (length value =? Util.kHashLength)%nat); [inversion H; auto|].
  eauto.
Qed.

(** When the loop runs to the end of a source that is not empty, the last
    block number seen is the first one awaited plus the number of entries
    less one, modulo [2 ^ 64]. *)
Lemma forward_loop_last (source_data : Table) (expected block_number : BlockNum)
    (collector : Etl.Collector) (last_seen : BlockNum) (collected : Etl.Collector) :
  forward_loop source_data expected block_number collector = inr (last_seen, collected) ->
  expected < 2 ^ 64 ->
  match source_data with
  | [] => last_seen = block_number /\ collected = collector
  | _ :: rest => last_seen = wrap64 (expected + N.of_nat (length rest))
  end.
Proof.
  revert expected block_number collector.
  induction source_data as [|[key value] rest IH];
    intros expected block_number collector H Hlt; cbn in H.
  - inversion H. auto.
  - destruct (N.eqb_spec (load_big_u64 key) expected) as [Hkey|]; [|discriminate].
    cbn [negb] in H.
    destruct (negb (length value =? Util.kHashLength)%nat); [discriminate|].
    apply IH in H; [|apply wrap64_lt].
    destruct rest as [|e rest'].
    + destruct H as [-> _]. cbn. rewrite N.add_0_r, wrap64_small; auto.
    + rewrite H. rewrite wrap64_succ. f_equal.
      cbn [length]. lia.
Qed.

(** With equal positive watermarks [forward] cannot succeed: the cursor
    starts above the target, so either nothing is visited and the last
    block number seen is still 0, or it ends above the target. *)
Lemma forward_equal_positive_watermarks (ordinal : N) (tx_mgr : TransactionManager)
    (context : SyncContext) (p : BlockNum) :
  progress tx_mgr context kBlockBodiesKey = p ->
  progress tx_mgr context kBlockHashesKey = p ->
  0 < p < 2 ^ 64 ->
  N.of_nat (length (CanonicalHashes (txn tx_mgr))) < 2 ^ 64 ->
  exists result,
    forward (StageBlockHashes ordinal) tx_mgr context
      = (result, tx_mgr, after_reads tx_mgr context)
    /\ (result = kBadChainSequence \/ result = kBadBlockHash).
Proof.
  intros Hbodies Hhashes Hp Hlen.
  rewrite forward_eq. cbv zeta. rewrite Hbodies, Hhashes.
  assert (Hstart : first_block p = wrap64 (p + 1)).
  { unfold first_block. destruct (N.eqb_spec p 0); [lia | reflexivity]. }
  rewrite Hstart.
  pose proof (find_length (CanonicalHashes (txn tx_mgr)) (block_key (wrap64 (p + 1))))
    as Hfind.
  destruct (forward_loop _ _ _ _) as [r|[bn col]] eqn:Hloop.
  - eexists. split; [reflexivity|]. eapply forward_loop_early, Hloop.
  - apply forward_loop_last in Hloop; [|apply wrap64_lt].
    assert (Hne : bn <> p).
    { destruct (find _ _) as [|e rest].
      - destruct Hloop as [-> _]. lia.
      - cbn [length] in Hfind. subst bn.
        rewrite wrap64_succ. unfold wrap64.
        intros Heq.
        assert (Hm : (p + (N.of_nat (length rest) + 1)) mod 2 ^ 64
                     = ((N.of_nat (length rest) + 1) + p) mod 2 ^ 64) by (f_equal; lia).
        rewrite Hm in Heq. clear Hm.
        set (m := N.of_nat (length rest) + 1) in *.
        assert (Hm : 0 < m < 2 ^ 64) by (subst m; lia).
        destruct (N.lt_ge_cases (m + p) (2 ^ 64)) as [Hsmall|Hbig].
        + rewrite N.mod_small in Heq by assumption. lia.
        + assert (Hsub : (m + p) mod 2 ^ 64 = m + p - 2 ^ 64).
          { symmetry. apply (N.mod_unique (m + p) (2 ^ 64) 1); lia. }
          rewrite Hsub in Heq. lia. }
    apply N.eqb_neq in Hne. rewrite Hne. cbn [negb].
    eexists. split; [reflexivity | now left].
Qed.

End EmptyRange.

(** C2 on the state the happy path leaves: CanonicalHashes holds blocks 0 to
    3, HeaderNumbers their inverse, and both watermarks are 3. [forward]
    returns [kBadChainSequence] instead of [kSuccess] (nothing is written).
    The same happens when [forward] is simply called a second time. *)
Theorem forward_equal_watermarks_fails :
  let stage := Stages.StageBlockHashes 1 in
  let tx := StageProps.open_tx
              (StageProps.db_of (StageProps.canonical_0_3 StageProps.hash_11)
                 ((StageProps.hash_11, Kv.block_key 0) :: StageProps.inverse_1_3) 3 3) in
  let once := Stages.forward stage
                (StageProps.open_tx
                   (StageProps.db_of (StageProps.canonical_0_3 StageProps.hash_11) [] 3 0))
                StageProps.fresh_context in
  StageProps.progress tx StageProps.fresh_context Stages.kBlockBodiesKey = 3
  /\ StageProps.progress tx StageProps.fresh_context Stages.kBlockHashesKey = 3
  /\ Stages.forward stage tx StageProps.fresh_context
     = (Stages.kBadChainSequence, tx, StageProps.after_reads tx StageProps.fresh_context)
  /\ fst (fst once) = Stages.kSuccess
  /\ Stages.forward stage (snd (fst once)) (snd once)
     = (Stages.kBadChainSequence, snd (fst once), snd once).
Proof. vm_compute. repeat split. Qed.

(** With both watermarks at 0 and the genesis entry in CanonicalHashes, the
    stage indexes block 0: [forward] succeeds and writes one entry. *)
Example forward_genesis_only :
  let tx := StageProps.open_tx
              (StageProps.db_of [(Kv.block_key 0, StageProps.hash_11)] [] 0 0) in
  let result := Stages.forward (Stages.StageBlockHashes 1) tx StageProps.fresh_context in
  fst (fst result) = Stages.kSuccess
  /\ Kv.HeaderNumbers (Kv.txn (snd (fst result))) = [(StageProps.hash_11, Kv.block_key 0)]
  /\ StageProps.progress (snd (fst result)) (snd result) Stages.kBlockHashesKey = 0.
Proof. vm_compute. repeat split. Qed.


(** * Further properties of the byte utilities *)
Section ZerolessFacts.
Import Util MoreProps.

Lemma count_zero_bytes_spec (n : nat) (bytes : Bytes) :
  let z := count_zero_bytes n bytes in
  (z <= n)%nat /\ (z <= length bytes)%nat
  /\ firstn z bytes = repeat x00 z
  /\ ((z < n)%nat -> zeroless (skipn z bytes)).
Proof.
  revert bytes. induction n as [|n IH]; intros [|b tl]; cbn; try (repeat split; auto; lia).
  destruct (N.eqb_spec (Byte.to_N b) 0) as [Hz|Hnz].
  - assert (b = x00) by (apply byte_to_N_inj; exact Hz). subst b.
    destruct (IH tl) as (H1 & H2 & H3 & H4). cbn.
    repeat split; try lia.
    + now rewrite H3.
    + intros Hlt. apply H4. lia.
  - cbn. repeat split; try lia. intros _ ->. now apply Hnz.
Qed.

(** Zero bytes in front of a string without leading zero are all counted. *)
Lemma count_zero_bytes_padded (n k : nat) (bytes : Bytes) :
  (k <= n)%nat -> zeroless bytes ->
  (k + length bytes <= n)%nat ->
  count_zero_bytes n (repeat x00 k ++ bytes) = k.
Proof.
  revert n. induction k as [|k IH]; intros n Hk Hz Hlen.
  - cbn [repeat app]. destruct n as [|n], bytes as [|b tl]; try reflexivity.
    cbn. destruct (N.eqb_spec (Byte.to_N b) 0) as [E|]; [|reflexivity].
    apply (byte_to_N_inj b x00) in E. now contradiction Hz.
  - destruct n as [|n]; [lia|]. cbn. f_equal. apply IH; [lia | assumption | cbn in Hlen; lia].
Qed.

End ZerolessFacts.

(** X1. [zeroless_view] of a 32-byte hash is the hash without its leading
    zero bytes: the hash is the view behind as many zero bytes as the view is
    short of 32, and the view does not start with a zero byte. *)
Theorem zeroless_view_strips_zeros (hash : Bytes) :
  length hash = 32%nat ->
  let view := Util.zeroless_view hash in
  hash = repeat x00 (32 - length view) ++ view
  /\ MoreProps.zeroless view
  /\ (length view <= 32)%nat.
Proof.
  intros Hlen view. subst view. unfold Util.zeroless_view.
  change Util.kHashLength with 32%nat.
  destruct (count_zero_bytes_spec 32 hash) as (Hz1 & Hz2 & Hz3 & Hz4).
  set (z := Util.count_zero_bytes 32 hash) in *.
  assert (Hview : firstn (32 - z) (skipn z hash) = skipn z hash).
  { apply firstn_all2. rewrite length_skipn. lia. }
  rewrite Hview.
  assert (Hl : length (skipn z hash) = (32 - z)%nat) by (rewrite length_skipn; lia).
  rewrite Hl. replace (32 - (32 - z))%nat with z by lia.
  repeat split.
  - rewrite <- Hz3. symmetry. apply firstn_skipn.
  - destruct (Nat.eq_dec z 32%nat) as [E|E].
    + rewrite E, skipn_all2 by lia. exact I.
    + apply Hz4. lia.
  - lia.
Qed.

Lemma zeroless_view_strips_zeros_witness :
  Util.zeroless_view (repeat x00 30 ++ [x01; xc9]) = [x01; xc9]
  /\ repeat x00 30 ++ [x01; xc9]
     = repeat x00 (32 - length (Util.zeroless_view (repeat x00 30 ++ [x01; xc9])))
       ++ Util.zeroless_view (repeat x00 30 ++ [x01; xc9]).
Proof.
  split; [reflexivity|].
  exact (proj1 (zeroless_view_strips_zeros (repeat x00 30 ++ [x01; xc9]) eq_refl)).
Defined.

(** X2. [to_hash] undoes [zeroless_view]: for every 32-byte hash,
    [to_hash (zeroless_view hash) = hash]. *)
Theorem to_hash_zeroless_view (hash : Bytes) :
  length hash = 32%nat -> Util.to_hash (Util.zeroless_view hash) = hash.
Proof.
  intros Hlen.
  destruct (zeroless_view_strips_zeros hash Hlen) as (Hsplit & _ & Hle).
  cbv zeta in Hsplit, Hle.
  rewrite to_hash_eq. change Util.kHashLength with 32%nat.
  rewrite Nat.min_l by exact Hle.
  rewrite firstn_all. symmetry. exact Hsplit.
Qed.

Lemma to_hash_zeroless_view_witness :
  Util.to_hash (Util.zeroless_view (repeat x00 31 ++ [x3e])) = repeat x00 31 ++ [x3e].
Proof. apply to_hash_zeroless_view. reflexivity. Defined.

(** X3. [zeroless_view] undoes [to_hash] on what a view can be: for every
    byte string of at most 32 bytes that does not start with a zero byte,
    [zeroless_view (to_hash b) = b]. *)
Theorem zeroless_view_to_hash (b : Bytes) :
  (length b <= 32)%nat -> MoreProps.zeroless b ->
  Util.zeroless_view (Util.to_hash b) = b.
Proof.
  intros Hlen Hz. rewrite to_hash_eq. change Util.kHashLength with 32%nat.
  rewrite Nat.min_l by exact Hlen. rewrite firstn_all.
  unfold Util.zeroless_view. change Util.kHashLength with 32%nat.
  rewrite count_zero_bytes_padded by (auto; lia).
  rewrite skipn_app, repeat_length, Nat.sub_diag, skipn_all2 by (rewrite repeat_length; lia).
  cbn [app skipn]. apply firstn_all2. lia.
Qed.

Lemma zeroless_view_to_hash_witness :
  Util.zeroless_view (Util.to_hash [x01; xc9]) = [x01; xc9].
Proof.
  apply zeroless_view_to_hash; [cbn; lia | cbn; discriminate].
Defined.

Section HexFacts.
Import Util MoreProps.

Lemma to_N_byte_of_N (n : N) : n < 256 -> Byte.to_N (byte_of_N n) = n.
Proof.
  intros Hn. unfold byte_of_N. destruct (Byte.of_N n) as [b|] eqn:E.
  - now apply Byte.to_of_N.
  - apply Byte.of_N_None_iff in E. lia.
Qed.

(** A character [unhex] accepts stands for a nibble, and [hex_lower] writes
    that nibble as the lower-case form of the character. *)
Lemma hex_char_to_int_lower (c : ascii) (d : N) :
  hex_char_to_int c = Some d -> d < 16 /\ hex_digit d = ascii_lower c.
Proof.
  destruct c as [[] [] [] [] [] [] [] []]; intros H; compute in H;
    first [discriminate H | injection H as <-; split; reflexivity].
Qed.

Lemma byte_of_nibbles (hi lo : N) :
  hi < 16 -> lo < 16 ->
  Byte.to_N (byte_of_N (16 * hi + lo)) / 16 = hi
  /\ Byte.to_N (byte_of_N (16 * hi + lo)) mod 16 = lo.
Proof.
  intros Hhi Hlo. rewrite to_N_byte_of_N by lia. split.
  - symmetry. apply (N.div_unique _ 16 hi lo); lia.
  - symmetry. apply (N.mod_unique _ 16 hi lo); lia.
Qed.

Lemma to_hex_length (bytes : Bytes) : String.length (to_hex bytes) = (2 * length bytes)%nat.
Proof.
  unfold to_hex. induction bytes as [|b rest IH]; cbn [hex_lower String.length length].
  - reflexivity.
  - rewrite IH. lia.
Qed.

(** What [unhex] accepts is, up to the case of the digits, what [to_hex]
    writes for the bytes it returns. *)
Lemma to_hex_unhex (out : Bytes) (s : string) :
  unhex s = inr out -> to_hex out = string_lower s.
Proof.
  revert s. induction out as [|x out IH]; intros s H.
  - destruct s as [|c1 [|c2 rest]]; [reflexivity | |]; cbn in H.
    + destruct (hex_char_to_int c1); discriminate.
    + destruct (hex_char_to_int c1); [|discriminate].
      destruct (hex_char_to_int c2); [|discriminate].
      destruct (unhex rest); discriminate.
  - destruct s as [|c1 [|c2 rest]]; cbn in H; [discriminate | |].
    + destruct (hex_char_to_int c1); discriminate.
    + destruct (hex_char_to_int c1) as [hi|] eqn:E1; [|discriminate].
      destruct (hex_char_to_int c2) as [lo|] eqn:E2; [|discriminate].
      destruct (unhex rest) as [e|out'] eqn:Er; [discriminate|].
      injection H as Hx Hout. subst x out'.
      apply hex_char_to_int_lower in E1 as [Hhi E1], E2 as [Hlo E2].
      destruct (byte_of_nibbles hi lo Hhi Hlo) as [Hd Hm].
      unfold to_hex in *. cbn [hex_lower string_lower].
      rewrite Hd, Hm, E1, E2. f_equal. f_equal. now apply IH.
Qed.

Lemma string_lower_length (s : string) : String.length (string_lower s) = String.length s.
Proof. induction s as [|c s IH]; cbn; [reflexivity | now rewrite IH]. Qed.

(** [from_hex] hands the digits of its argument to [unhex]. *)
Lemma from_hex_digits (hex : string) : from_hex hex = unhex (hex_digits hex).
Proof.
  unfold hex_digits. destruct hex as [|c0 [|c1 rest]]; try reflexivity.
  destruct (has_0x_prefix (String c0 (String c1 rest))) eqn:Hp.
  - unfold from_hex. rewrite Hp.
    replace (String.length (String c0 (String c1 rest)) - 2)%nat
      with (String.length rest) by (cbn [String.length]; lia).
    change (String.substring 2 (String.length rest) (String c0 (String c1 rest)))
      with (String.substring 0 (String.length rest) rest).
    now rewrite substring_whole.
  - unfold from_hex. now rewrite Hp.
Qed.

End HexFacts.

(** X4. What [from_hex] accepts is, up to the case of the digits and the
    [0x] prefix, what [to_hex] writes: if [from_hex hex] returns [out], then
    [to_hex out] is the lower-case form of the digits of [hex], and there are
    exactly two digits per byte. *)
Theorem to_hex_from_hex (hex : string) (out : Bytes) :
  Util.from_hex hex = inr out ->
  Util.to_hex out = MoreProps.string_lower (MoreProps.hex_digits hex)
  /\ String.length (MoreProps.hex_digits hex) = (2 * length out)%nat.
Proof.
  intros H. rewrite from_hex_digits in H. apply to_hex_unhex in H.
  split; [exact H|].
  rewrite <- string_lower_length, <- H. apply to_hex_length.
Qed.

Lemma to_hex_from_hex_witness :
  Util.to_hex [x01; xc9] = MoreProps.string_lower (MoreProps.hex_digits "0X01C9")
  /\ String.length (MoreProps.hex_digits "0X01C9") = 4%nat.
Proof. exact (to_hex_from_hex "0X01C9" [x01; xc9] eq_refl). Defined.

Section HexErrors.
Import Util MoreProps.

(** [unhex] on a string and on the string behind one more character. *)
Lemma unhex_outcome (s : string) :
  let outcome (s : string) : Prop :=
    match unhex s with
    | inl non_hex_input => all_hex s = false
    | inl not_enough_input => all_hex s = true /\ Nat.odd (String.length s) = true
    | inr _ => all_hex s = true /\ Nat.odd (String.length s) = false
    end in
  outcome s /\ forall c, outcome (String c s).
Proof.
  intros outcome. induction s as [|c2 rest [IH1 IH2]].
  - split; [cbn; auto|]. intros c. unfold outcome. cbn.
    destruct (hex_char_to_int c); cbn; auto.
  - split; [apply IH2|]. intros c1. unfold outcome in *.
    cbn [unhex all_hex String.length].
    destruct (hex_char_to_int c1); [|reflexivity].
    destruct (hex_char_to_int c2); [|reflexivity].
    change (Nat.odd (S (S (String.length rest)))) with (Nat.odd (String.length rest)).
    destruct (unhex rest) as [[]|out]; exact IH1.
Qed.

End HexErrors.

(** X5. The three outcomes of [from_hex], by the digits of its argument:
    [non_hex_input] exactly when some digit is not hexadecimal;
    [not_enough_input] exactly when all are and their number is odd; bytes
    exactly when all are and their number is even. *)
Theorem from_hex_outcome (hex : string) :
  let digits := MoreProps.hex_digits hex in
  match Util.from_hex hex with
  | inl Util.non_hex_input => MoreProps.all_hex digits = false
  | inl Util.not_enough_input =>
      MoreProps.all_hex digits = true /\ Nat.odd (String.length digits) = true
  | inr _ => MoreProps.all_hex digits = true /\ Nat.odd (String.length digits) = false
  end.
Proof.
  intros digits. rewrite from_hex_digits. fold digits.
  exact (proj1 (unhex_outcome digits)).
Qed.


(** * Further properties of the RLP decoders *)
Section BigEndianFacts.
Import Kv.

Lemma be_value_fold (p : Bytes) (acc : N) :
  fold_left (fun acc b => 256 * acc + Byte.to_N b) p acc
  = acc * 256 ^ N.of_nat (length p) + be_value p.
Proof.
  unfold be_value. revert acc. induction p as [|b p IH]; intros acc.
  - cbn. lia.
  - cbn [fold_left length]. rewrite IH, (IH (256 * 0 + Byte.to_N b)).
    rewrite Nat2N.inj_succ, N.pow_succ_r'. lia.
Qed.

Lemma be_value_cons (b : byte) (p : Bytes) :
  be_value (b :: p) = Byte.to_N b * 256 ^ N.of_nat (length p) + be_value p.
Proof. unfold be_value at 1. cbn [fold_left]. rewrite be_value_fold. lia. Qed.

Lemma be_value_snoc (p : Bytes) (b : byte) :
  be_value (p ++ [b]) = 256 * be_value p + Byte.to_N b.
Proof. unfold be_value. now rewrite fold_left_app. Qed.

Lemma byte_bounded (b : byte) : Byte.to_N b < 256.
Proof. pose proof (Byte.to_N_bounded b). lia. Qed.

Lemma be_value_lt (p : Bytes) : be_value p < 256 ^ N.of_nat (length p).
Proof.
  induction p as [|b p IH]; [cbn; lia|].
  rewrite be_value_cons. cbn [length]. rewrite Nat2N.inj_succ, N.pow_succ_r'.
  pose proof (byte_bounded b). nia.
Qed.

Lemma be_value_zeros (k : nat) (p : Bytes) : be_value (repeat x00 k ++ p) = be_value p.
Proof.
  induction k as [|k IH]; [reflexivity|].
  cbn [repeat app]. rewrite be_value_cons, IH. cbn. lia.
Qed.

(** A first byte that is not zero puts the value in the top digit. *)
Lemma be_value_ge (b : byte) (p : Bytes) :
  b <> x00 -> 256 ^ N.of_nat (length p) <= be_value (b :: p).
Proof.
  intros Hb. rewrite be_value_cons.
  assert (Byte.to_N b <> 0).
  { intros E. apply Hb. now apply byte_to_N_inj. }
  nia.
Qed.

Lemma be_value_inj_length (p q : Bytes) :
  length p = length q -> be_value p = be_value q -> p = q.
Proof.
  revert q. induction p as [|b p IH]; intros [|c q] Hlen Hv; try discriminate; [reflexivity|].
  injection Hlen as Hlen. rewrite !be_value_cons, <- Hlen in Hv.
  pose proof (be_value_lt p) as Hp. pose proof (be_value_lt q) as Hq. rewrite <- Hlen in Hq.
  set (m := 256 ^ N.of_nat (length p)) in *.
  assert (Hb : Byte.to_N b = Byte.to_N c) by nia.
  assert (Hr : be_value p = be_value q) by nia.
  apply byte_to_N_inj in Hb. subst c. f_equal. now apply IH.
Qed.

(** A value has one big-endian image without leading zero byte. *)
Lemma be_value_inj_zeroless (p q : Bytes) :
  MoreProps.zeroless p -> MoreProps.zeroless q -> be_value p = be_value q -> p = q.
Proof.
  intros Hp Hq Hv. apply be_value_inj_length; [|exact Hv].
  assert (Hcmp : forall a b : Bytes,
             MoreProps.zeroless a -> (length a < length b)%nat -> MoreProps.zeroless b ->
             be_value a < be_value b).
  { intros a b Ha Hlt Hb. destruct b as [|y b]; [cbn in Hlt; lia|].
    cbn in Hb. pose proof (be_value_ge y b Hb) as Hge.
    pose proof (be_value_lt a) as Hlta. cbn [length] in Hlt.
    assert (256 ^ N.of_nat (length a) <= 256 ^ N.of_nat (length b))
      by (apply N.pow_le_mono_r; lia).
    lia. }
  destruct (Nat.lt_trichotomy (length p) (length q)) as [H|[H|H]]; [|exact H|].
  - pose proof (Hcmp p q Hp H Hq). lia.
  - pose proof (Hcmp q p Hq H Hp). lia.
Qed.

(** The byte swap of the little-endian buffer is the big-endian value. *)
Lemma bswap_be_value (mem : Bytes) : Rlp.bswap mem = be_value mem.
Proof.
  unfold Rlp.bswap. induction mem as [|b mem IH] using rev_ind; [reflexivity|].
  rewrite rev_app_distr, be_value_snoc. cbn [rev app Rlp.le_value]. rewrite IH. lia.
Qed.

End BigEndianFacts.

Section DecodeFacts.
Import Rlp MoreProps.

Lemma read_ok (payload rest : Bytes) :
  read (payload ++ rest) (length payload) = inr (payload, rest).
Proof.
  unfold read. rewrite length_app.
  destruct (Nat.ltb_spec (length payload + length rest) (length payload)); [lia|].
  rewrite firstn_app, Nat.sub_diag, firstn_all, skipn_app, Nat.sub_diag, skipn_all.
  cbn. now rewrite app_nil_r.
Qed.

Lemma read_inv (from : istream) (n : nat) (payload rest : Bytes) :
  read from n = inr (payload, rest) -> from = payload ++ rest /\ length payload = n.
Proof.
  unfold read. destruct (Nat.ltb_spec (length from) n) as [|Hge]; [discriminate|].
  intros Hr. injection Hr as <- <-. split.
  - symmetry. apply firstn_skipn.
  - apply firstn_length_le. assumption.
Qed.

(** The part the two integer decoders share once the payload is known not to
    be empty: refuse a leading zero, else read the payload into the low end
    of a zeroed buffer of [width] bytes and swap. *)
Lemma read_payload_iff (width : nat) (from : istream) (len : nat) (v : N) (rest : istream) :
  (1 <= len)%nat ->
  (try c <~ peek from in
   if c =? 0 then inl (DecodingError "leading zero(s)")
   else
     try (buf, from) <~ read_into_buf width from len in
     inr (bswap buf, from)) = inr (v, rest)
  <-> exists payload,
        from = payload ++ rest /\ length payload = len
        /\ zeroless payload /\ v = Kv.be_value payload.
Proof.
  intros Hlen. split.
  - destruct from as [|c tl]; [discriminate|]. cbn [peek bind].
    destruct (N.eqb_spec (Byte.to_N c) 0) as [|Hc]; [discriminate|].
    unfold read_into_buf. destruct (read (c :: tl) len) as [e|[payload from']] eqn:Hr;
      [discriminate|].
    cbn [bind]. intros H. injection H as <- <-.
    apply read_inv in Hr as [Hfrom Hl]. exists payload. repeat split; auto.
    + destruct payload as [|b p]; [exact I|]. cbn in Hfrom. injection Hfrom as -> _.
      cbn. intros ->. now apply Hc.
    + now rewrite bswap_be_value, be_value_zeros.
  - intros (payload & -> & <- & Hz & ->).
    destruct payload as [|b p]; [cbn in Hlen; lia|]. cbn in Hz.
    cbn [app peek bind].
    destruct (N.eqb_spec (Byte.to_N b) 0) as [E|_].
    { apply (byte_to_N_inj b x00) in E. contradiction. }
    unfold read_into_buf. change (b :: p ++ rest) with ((b :: p) ++ rest).
    rewrite read_ok. cbn [bind]. now rewrite bswap_be_value, be_value_zeros.
Qed.

Lemma be_value_lt_width (payload : Bytes) (w : N) :
  N.of_nat (length payload) <= w -> Kv.be_value payload < 256 ^ w.
Proof.
  intros H. pose proof (be_value_lt payload).
  assert (256 ^ N.of_nat (length payload) <= 256 ^ w) by (apply N.pow_le_mono_r; lia).
  lia.
Qed.

Lemma read_uint64_iff (from : istream) (len v : N) (rest : istream) :
  len <= 8 ->
  read_uint64 from len = inr (v, rest)
  <-> exists payload,
        from = payload ++ rest /\ N.of_nat (length payload) = len
        /\ zeroless payload /\ v = Kv.be_value payload.
Proof.
  intros Hlen. unfold read_uint64.
  destruct (N.ltb_spec 8 len) as [|_]; [lia|].
  destruct (N.eqb_spec len 0) as [->|Hne].
  - split.
    + intros Hr. injection Hr as <- <-. exists []. now repeat split.
    + intros (payload & -> & Hl & _ & ->). destruct payload; [reflexivity|cbn in Hl; lia].
  - rewrite read_payload_iff by lia. split; intros (payload & ? & ? & ? & ?);
      exists payload; repeat split; auto; lia.
Qed.

(** [decode_header] on the items the integer decoders accept. *)
Lemma decode_header_string_item (payload rest : Bytes) :
  (length payload <= 55)%nat ->
  decode_header (string_item payload ++ rest)
  = inr ({| list := false; payload_length := N.of_nat (length payload) |},
         payload ++ rest).
Proof.
  intros Hlen. unfold string_item.
  assert (Hshort : forall p : Bytes,
             (length p <= 55)%nat -> length p <> 1%nat ->
             decode_header ((Util.byte_of_N (0x80 + N.of_nat (length p)) :: p) ++ rest)
             = inr ({| list := false; payload_length := N.of_nat (length p) |}, p ++ rest)).
  { intros p Hp H1. cbn [app]. unfold decode_header.
    rewrite to_N_byte_of_N by lia.
    destruct (N.ltb_spec (0x80 + N.of_nat (length p)) 0x80); [lia|].
    destruct (N.ltb_spec (0x80 + N.of_nat (length p)) 0xB8); [|lia].
    replace (0x80 + N.of_nat (length p) - 0x80) with (N.of_nat (length p)) by lia.
    destruct (N.eqb_spec (N.of_nat (length p)) 1); [lia | reflexivity]. }
  destruct payload as [|b [|b' p]].
  - apply (Hshort []); cbn; lia.
  - destruct (N.ltb_spec (Byte.to_N b) 0x80) as [Hb|Hb].
    + cbn [app]. unfold decode_header. destruct (N.ltb_spec (Byte.to_N b) 0x80); [|lia].
      reflexivity.
    + cbn [app]. unfold decode_header. rewrite to_N_byte_of_N by lia.
      cbn [N.ltb N.compare Pos.compare Pos.compare_cont N.sub N.eqb Pos.eqb peek bind].
      change (0x80 + 1 <? 0x80) with false. change (0x80 + 1 <? 0xB8) with true.
      change (0x80 + 1 - 0x80 =? 1) with true. cbn [peek bind].
      destruct (N.ltb_spec (Byte.to_N b) 0x80); [lia | reflexivity].
  - apply (Hshort (b :: b' :: p)); [exact Hlen | cbn; lia].
Qed.

(** A string header that announces at most 55 bytes came from a
    [string_item] prefix. *)
Lemma decode_header_string_inv (s from : istream) (h : Header) :
  decode_header s = inr (h, from) -> list h = false -> payload_length h <= 55 ->
  forall payload rest,
    from = payload ++ rest -> N.of_nat (length payload) = payload_length h ->
    s = string_item payload ++ rest.
Proof.
  intros Hd Hlist Hpl payload rest -> Hlen.
  destruct s as [|c tl]; [discriminate|]. unfold decode_header in Hd.
  assert (Hprefix : forall n, Byte.to_N c = 0x80 + n -> n < 128 ->
                     c = Util.byte_of_N (0x80 + n)).
  { intros n Hc Hn. apply byte_to_N_inj. rewrite to_N_byte_of_N by lia. exact Hc. }
  destruct (N.ltb_spec (Byte.to_N c) 0x80) as [Hc|Hc].
  - injection Hd as <- Hfrom. cbn in Hlen.
    destruct payload as [|b [|b' p]]; cbn in Hlen; try lia.
    cbn in Hfrom. injection Hfrom as -> ->. unfold string_item.
    destruct (N.ltb_spec (Byte.to_N b) 0x80); [reflexivity | lia].
  - destruct (N.ltb_spec (Byte.to_N c) 0xB8) as [Hc2|Hc2].
    + destruct (N.eqb_spec (Byte.to_N c - 0x80) 1) as [E1|E1].
      * destruct tl as [|d tl']; [discriminate|]. cbn [peek bind] in Hd.
        destruct (N.ltb_spec (Byte.to_N d) 0x80) as [Hd1|Hd1]; [discriminate|].
        injection Hd as <- Hfrom. cbn in Hlen.
        destruct payload as [|b [|b' p]]; cbn in Hlen; try lia.
        cbn in Hfrom. injection Hfrom as -> ->. unfold string_item.
        destruct (N.ltb_spec (Byte.to_N b) 0x80); [lia|].
        cbn [app]. f_equal. apply (Hprefix 1); lia.
      * injection Hd as <- Hfrom. cbn in Hlen. subst tl.
        assert (Hc3 : c = Util.byte_of_N (0x80 + N.of_nat (length payload))).
        { apply Hprefix; lia. }
        unfold string_item. destruct payload as [|b [|b' p]]; cbn [app]; f_equal; auto.
        cbn in Hlen. lia.
    + destruct (N.ltb_spec (Byte.to_N c) 0xC0).
      * destruct (read_uint64 tl (Byte.to_N c - 0xB7)) as [e|[len from']]; [discriminate|].
        cbn [bind] in Hd. destruct (N.ltb_spec len 56); [discriminate|].
        injection Hd as <- _. cbn in Hpl. lia.
      * destruct (N.ltb_spec (Byte.to_N c) 0xF8).
        -- injection Hd as <- _. discriminate.
        -- destruct (read_uint64 tl (Byte.to_N c - 0xF7)) as [e|[len from']]; [discriminate|].
           cbn [bind] in Hd. destruct (N.ltb_spec len 56); [discriminate|].
           injection Hd as <- _. discriminate.
Qed.

End DecodeFacts.

(** X6. On a stream that holds the [len] bytes it is asked for, [len] at
    most 8 (nothing is read past the end, so the exception mask of the
    stream plays no part), [read_uint64] returns 0 for [len = 0] and takes
    nothing; raises "leading zero(s)" when the first byte is zero; and
    otherwise takes exactly the [len] bytes and returns their big-endian
    value, which is below [256 ^ len]. *)
Theorem read_uint64_big_endian (payload rest : Bytes) :
  (length payload <= 8)%nat ->
  Rlp.read_uint64 (payload ++ rest) (N.of_nat (length payload))
  = match payload with
    | [] => inr (0, rest)
    | c :: _ =>
        if Byte.to_N c =? 0 then inl (Rlp.DecodingError "leading zero(s)")
        else inr (Kv.be_value payload, rest)
    end
  /\ Kv.be_value payload < 256 ^ N.of_nat (length payload).
Proof.
  intros Hlen. split; [|apply be_value_lt_width; lia].
  destruct payload as [|c p]; [reflexivity|].
  destruct (N.eqb_spec (Byte.to_N c) 0) as [E|E].
  - unfold Rlp.read_uint64.
    destruct (N.ltb_spec 8 (N.of_nat (length (c :: p)))) as [|_]; [cbn in *; lia|].
    destruct (N.eqb_spec (N.of_nat (length (c :: p))) 0) as [|_]; [cbn in *; lia|].
    cbn [app Rlp.peek Rlp.bind]. now rewrite E.
  - apply read_uint64_iff; [cbn in *; lia|].
    exists (c :: p). repeat split. cbn. intros ->. now apply E.
Qed.

Lemma read_uint64_big_endian_witness :
  Rlp.read_uint64 [x05; x06; xff] 2 = inr (0x0506, [xff])
  /\ Rlp.read_uint64 [x00; x06; xff] 2 = inl (Rlp.DecodingError "leading zero(s)")
  /\ Kv.be_value [x05; x06] < 256 ^ 2.
Proof.
  split; [|split].
  - apply (read_uint64_big_endian [x05; x06] [xff]). cbn. lia.
  - apply (read_uint64_big_endian [x00; x06] [xff]). cbn. lia.
  - apply (read_uint64_big_endian [x05; x06] [xff]). cbn. lia.
Defined.

Lemma decode_uint64_inv (s : Bytes) (v : N) (rest : Bytes) :
  Rlp.decode_uint64 s = inr (v, rest) ->
  exists payload,
    (length payload <= 8)%nat /\ MoreProps.zeroless payload
    /\ v = Kv.be_value payload /\ s = MoreProps.string_item payload ++ rest.
Proof.
  unfold Rlp.decode_uint64.
  destruct (Rlp.decode_header s) as [e|[h from]] eqn:Hd; [discriminate|].
  cbn [Rlp.bind]. destruct (Rlp.list h) eqn:Hlist; [discriminate|].
  destruct (N.ltb_spec 8 (Rlp.payload_length h)) as [|Hpl]; [discriminate|].
  intros Hr. apply read_uint64_iff in Hr as (payload & Hfrom & Hl & Hz & Hv); [|exact Hpl].
  exists payload. repeat split; auto; [lia|].
  eapply decode_header_string_inv; eauto. lia.
Qed.

Lemma decode_uint256_inv (s : Bytes) (v : N) (rest : Bytes) :
  Rlp.decode_uint256 s = inr (v, rest) ->
  exists payload,
    (length payload <= 32)%nat /\ MoreProps.zeroless payload
    /\ v = Kv.be_value payload /\ s = MoreProps.string_item payload ++ rest.
Proof.
  unfold Rlp.decode_uint256.
  destruct (Rlp.decode_header s) as [e|[h from]] eqn:Hd; [discriminate|].
  cbn [Rlp.bind]. destruct (Rlp.list h) eqn:Hlist; [discriminate|].
  destruct (N.ltb_spec 32 (Rlp.payload_length h)) as [|Hpl]; [discriminate|].
  destruct (N.eqb_spec (Rlp.payload_length h) 0) as [H0|H0].
  - intros Hr. injection Hr as <- <-. exists []. repeat split; [cbn; lia|].
    refine (decode_header_string_inv s from h Hd Hlist _ [] from eq_refl _);
      [lia | now rewrite H0].
  - intros Hr. apply read_payload_iff in Hr as (payload & Hfrom & Hl & Hz & Hv); [|lia].
    exists payload. repeat split; auto; [lia|].
    eapply decode_header_string_inv; eauto; lia.
Qed.

(** X7. [decode] to [uint64_t] accepts exactly the canonical items: the
    stream starts with the RLP string item of a payload of at most 8 bytes
    without leading zero byte; the result is the big-endian value of that
    payload and the stream behind the item. *)
Theorem decode_uint64_canonical_items (s : Bytes) (v : N) (rest : Bytes) :
  Rlp.decode_uint64 s = inr (v, rest)
  <-> exists payload,
        (length payload <= 8)%nat /\ MoreProps.zeroless payload
        /\ v = Kv.be_value payload /\ s = MoreProps.string_item payload ++ rest.
Proof.
  split; [apply decode_uint64_inv|].
  unfold Rlp.decode_uint64.
  intros (payload & Hlen & Hz & -> & ->).
  rewrite decode_header_string_item by lia. cbn [Rlp.bind Rlp.list Rlp.payload_length].
  destruct (N.ltb_spec 8 (N.of_nat (length payload))); [lia|].
  apply read_uint64_iff; [lia|]. exists payload. now repeat split.
Qed.

(** X8. [decode] to [intx::uint256] accepts exactly the canonical items: the
    stream starts with the RLP string item of a payload of at most 32 bytes
    without leading zero byte; the result is the big-endian value of that
    payload and the stream behind the item. *)
Theorem decode_uint256_canonical_items (s : Bytes) (v : N) (rest : Bytes) :
  Rlp.decode_uint256 s = inr (v, rest)
  <-> exists payload,
        (length payload <= 32)%nat /\ MoreProps.zeroless payload
        /\ v = Kv.be_value payload /\ s = MoreProps.string_item payload ++ rest.
Proof.
  split; [apply decode_uint256_inv|].
  unfold Rlp.decode_uint256.
  intros (payload & Hlen & Hz & -> & ->).
  rewrite decode_header_string_item by lia. cbn [Rlp.bind Rlp.list Rlp.payload_length].
  destruct (N.ltb_spec 32 (N.of_nat (length payload))); [lia|].
  destruct (N.eqb_spec (N.of_nat (length payload)) 0) as [H0|H0].
  - destruct payload; [reflexivity | cbn in H0; lia].
  - apply read_payload_iff; [lia|]. exists payload. repeat split; auto. lia.
Qed.

(** X9. Integers have one encoding: two streams from which [decode] reads
    the same [uint64_t] (or the same [uint256]) start with the same item.
    The values read are below [2 ^ 64] (resp. [2 ^ 256]). *)
Theorem decode_uint_unique_encoding (s1 s2 : Bytes) (v : N) (rest1 rest2 : Bytes) :
  (Rlp.decode_uint64 s1 = inr (v, rest1) ->
   Rlp.decode_uint64 s2 = inr (v, rest2) ->
   v < 2 ^ 64 /\ exists item, s1 = item ++ rest1 /\ s2 = item ++ rest2)
  /\ (Rlp.decode_uint256 s1 = inr (v, rest1) ->
      Rlp.decode_uint256 s2 = inr (v, rest2) ->
      v < 2 ^ 256 /\ exists item, s1 = item ++ rest1 /\ s2 = item ++ rest2).
Proof.
  split; intros H1 H2.
  - apply decode_uint64_inv in H1 as (p1 & Hl1 & Hz1 & Hv1 & ->).
    apply decode_uint64_inv in H2 as (p2 & Hl2 & Hz2 & Hv2 & ->).
    assert (p1 = p2) by (apply be_value_inj_zeroless; congruence). subst p2.
    split; [|eauto]. subst v. change (2 ^ 64) with (256 ^ 8). apply be_value_lt_width. lia.
  - apply decode_uint256_inv in H1 as (p1 & Hl1 & Hz1 & Hv1 & ->).
    apply decode_uint256_inv in H2 as (p2 & Hl2 & Hz2 & Hv2 & ->).
    assert (p1 = p2) by (apply be_value_inj_zeroless; congruence). subst p2.
    split; [|eauto]. subst v. change (2 ^ 256) with (256 ^ 32). apply be_value_lt_width. lia.
Qed.

Lemma decode_uint_unique_encoding_witness :
  0x0506 < 2 ^ 64
  /\ exists item, [x82; x05; x06; xff] = item ++ [xff] /\ [x82; x05; x06] = item ++ [].
Proof.
  apply (proj1 (decode_uint_unique_encoding [x82; x05; x06; xff] [x82; x05; x06]
                  0x0506 [xff] [])); reflexivity.
Defined.

(** X10. What a header that [decode_header] accepts tells: the item is a
    list exactly when the first byte is [0xC0] or more; the payload length is
    below [2 ^ 64]; it is below 56 exactly when the first byte is a short
    form (below [0xB8], or from [0xC0] to [0xF7]), so a long form never
    announces a length that a short form could; and the header takes at most
    nine bytes from the front of the stream. *)
Theorem decode_header_forms (s : Bytes) (h : Rlp.Header) (rest : Bytes) :
  Rlp.decode_header s = inr (h, rest) ->
  exists c tl,
    s = c :: tl
    /\ Rlp.list h = (0xC0 <=? Byte.to_N c)
    /\ Rlp.payload_length h < 2 ^ 64
    /\ (Rlp.payload_length h <? 56)
       = ((Byte.to_N c <? 0xB8) || ((0xC0 <=? Byte.to_N c) && (Byte.to_N c <? 0xF8)))
    /\ exists consumed, s = consumed ++ rest /\ (length consumed <= 9)%nat.
Proof.
  intros Hd. destruct s as [|c tl]; [discriminate|]. exists c, tl. split; [reflexivity|].
  unfold Rlp.decode_header in Hd. pose proof (byte_bounded c) as Hc.
  assert (Hlong : forall k len from',
             1 <= k <= 8 -> Rlp.read_uint64 tl k = inr (len, from') ->
             len < 2 ^ 64
             /\ exists consumed, c :: tl = consumed ++ from' /\ (length consumed <= 9)%nat).
  { intros k len from' Hk Hr.
    apply read_uint64_iff in Hr as (payload & -> & Hl & _ & ->); [|lia]. split.
    - change (2 ^ 64) with (256 ^ 8). apply be_value_lt_width. lia.
    - exists (c :: payload). split; [reflexivity | cbn; lia]. }
  destruct (N.ltb_spec (Byte.to_N c) 0x80).
  { injection Hd as <- <-. cbn.
    destruct (N.leb_spec 0xC0 (Byte.to_N c)); [lia|].
    destruct (N.ltb_spec (Byte.to_N c) 0xB8); [|lia].
    repeat split. exists []. split; [reflexivity | cbn; lia]. }
  destruct (N.ltb_spec (Byte.to_N c) 0xB8).
  { assert (Hh : h = {| Rlp.list := false; Rlp.payload_length := Byte.to_N c - 0x80 |}
                 /\ rest = tl).
    { destruct (Byte.to_N c - 0x80 =? 1); [|now injection Hd as <- <-].
      destruct (Rlp.peek tl) as [e|p]; [discriminate|]. cbn [Rlp.bind] in Hd.
      destruct (p <? 0x80); [discriminate | now injection Hd as <- <-]. }
    destruct Hh as [-> ->]. cbn.
    destruct (N.leb_spec 0xC0 (Byte.to_N c)); [lia|].
    destruct (N.ltb_spec (Byte.to_N c - 0x80) 56); [|lia].
    repeat split; [lia|]. exists [c]. split; [reflexivity | cbn; lia]. }
  destruct (N.ltb_spec (Byte.to_N c) 0xC0).
  { destruct (Rlp.read_uint64 tl (Byte.to_N c - 0xB7)) as [e|[len from']] eqn:Hr;
      [discriminate|].
    cbn [Rlp.bind] in Hd. destruct (N.ltb_spec len 56) as [|Hlen]; [discriminate|].
    injection Hd as <- <-. cbn.
    apply Hlong in Hr as [Hlt Hcons]; [|lia].
    destruct (N.leb_spec 0xC0 (Byte.to_N c)); [lia|].
    destruct (N.ltb_spec len 56); [lia|]. cbn. now repeat split. }
  destruct (N.ltb_spec (Byte.to_N c) 0xF8).
  { injection Hd as <- <-. cbn.
    destruct (N.leb_spec 0xC0 (Byte.to_N c)); [|lia].
    destruct (N.ltb_spec (Byte.to_N c - 0xC0) 56); [|lia]. cbn.
    repeat split; [lia|]. exists [c]. split; [reflexivity | cbn; lia]. }
  destruct (Rlp.read_uint64 tl (Byte.to_N c - 0xF7)) as [e|[len from']] eqn:Hr;
    [discriminate|].
  cbn [Rlp.bind] in Hd. destruct (N.ltb_spec len 56) as [|Hlen]; [discriminate|].
  injection Hd as <- <-. cbn.
  apply Hlong in Hr as [Hlt Hcons]; [|lia].
  destruct (N.leb_spec 0xC0 (Byte.to_N c)); [|lia].
  destruct (N.ltb_spec len 56); [lia|]. cbn. now repeat split.
Qed.

Lemma decode_header_forms_witness :
  exists c tl,
    [xb8; x38; x4c] = c :: tl
    /\ false = (0xC0 <=? Byte.to_N c)
    /\ 56 < 2 ^ 64
    /\ (56 <? 56)
       = ((Byte.to_N c <? 0xB8) || ((0xC0 <=? Byte.to_N c) && (Byte.to_N c <? 0xF8)))
    /\ exists consumed, [xb8; x38; x4c] = consumed ++ [x4c] /\ (length consumed <= 9)%nat.
Proof.
  exact (decode_header_forms [xb8; x38; x4c]
           {| Rlp.list := false; Rlp.payload_length := 56 |} [x4c] eq_refl).
Defined.

(** X11. [decode] to [Bytes] gives back the payload of a short string item
    and the stream behind it, for every payload of at most 55 bytes that
    [kMaxStringSize] allows; a longer one is refused with "string is too
    long". *)
Theorem decode_bytes_string_item (kMaxStringSize : N) (payload rest : Bytes) :
  (length payload <= 55)%nat ->
  Rlp.decode_bytes kMaxStringSize (MoreProps.string_item payload ++ rest)
  = if kMaxStringSize <? N.of_nat (length payload)
    then inl (Rlp.DecodingError "string is too long")
    else inr (payload, rest).
Proof.
  intros Hlen. unfold Rlp.decode_bytes.
  rewrite decode_header_string_item by exact Hlen.
  cbn [Rlp.bind Rlp.list Rlp.payload_length].
  destruct (kMaxStringSize <? N.of_nat (length payload)); [reflexivity|].
  rewrite Nat2N.id. apply read_ok.
Qed.

Lemma decode_bytes_string_item_witness :
  Rlp.decode_bytes 1024 [x8d; x61; x62; x63; x64; x65; x66; x67; x68; x69; x6a; x6b; x6c; x6d]
  = inr ([x61; x62; x63; x64; x65; x66; x67; x68; x69; x6a; x6b; x6c; x6d], []).
Proof.
  apply (decode_bytes_string_item 1024
           [x61; x62; x63; x64; x65; x66; x67; x68; x69; x6a; x6b; x6c; x6d] []).
  cbn. lia.
Defined.

(** X12. A truncated item gives no value: when the stream ends before the
    payload that the prefix [0x80 + n], [n] from 2 to 55, announces is
    complete, [decode] to [Bytes] raises the stream failure; [decode] to
    [uint64_t] ([n] at most 8) raises "leading zero(s)" when the first
    payload byte is there and is zero, since it looks at that byte before
    it reads, and the stream failure otherwise. *)
Theorem decode_truncated_payload
    (kMaxStringSize : N) (payload : Bytes) (k : nat) :
  (2 <= length payload <= 55)%nat ->
  (k < length payload)%nat ->
  let s := Util.byte_of_N (0x80 + N.of_nat (length payload)) :: firstn k payload in
  (N.of_nat (length payload) <= kMaxStringSize ->
   Rlp.decode_bytes kMaxStringSize s = inl Rlp.ios_failure)
  /\ ((length payload <= 8)%nat ->
      Rlp.decode_uint64 s
      = match firstn k payload with
        | [] => inl Rlp.ios_failure
        | c :: _ =>
            if Byte.to_N c =? 0 then inl (Rlp.DecodingError "leading zero(s)")
            else inl Rlp.ios_failure
        end).
Proof.
  intros Hlen Hk s.
  assert (Hh : Rlp.decode_header s
               = inr ({| Rlp.list := false;
                         Rlp.payload_length := N.of_nat (length payload) |},
                      firstn k payload)).
  { subst s. apply decode_header_short_string; [|lia]. apply to_N_byte_of_N. lia. }
  assert (Hr : Rlp.read (firstn k payload) (length payload) = inl Rlp.ios_failure).
  { unfold Rlp.read. rewrite length_firstn.
    destruct (Nat.ltb_spec (Nat.min k (length payload)) (length payload)); [reflexivity|lia]. }
  split.
  - intros Hmax. unfold Rlp.decode_bytes. rewrite Hh.
    cbn [Rlp.bind Rlp.list Rlp.payload_length].
    destruct (N.ltb_spec kMaxStringSize (N.of_nat (length payload))); [lia|].
    now rewrite Nat2N.id.
  - intros H8. unfold Rlp.decode_uint64. rewrite Hh.
    cbn [Rlp.bind Rlp.list Rlp.payload_length].
    destruct (N.ltb_spec 8 (N.of_nat (length payload))); [lia|].
    unfold Rlp.read_uint64.
    destruct (N.ltb_spec 8 (N.of_nat (length payload))); [lia|].
    destruct (N.eqb_spec (N.of_nat (length payload)) 0); [lia|].
    unfold Rlp.read_into_buf. rewrite Nat2N.id, Hr.
    destruct (firstn k payload) as [|c tl]; [reflexivity|].
    cbn [Rlp.peek Rlp.bind]. now destruct (Byte.to_N c =? 0).
Qed.

Lemma decode_truncated_payload_witness :
  Rlp.decode_bytes 1024 [x83; x61; x62] = inl Rlp.ios_failure
  /\ Rlp.decode_uint64 [x83; x61; x62] = inl Rlp.ios_failure
  /\ Rlp.decode_uint64 [x82; x00] = inl (Rlp.DecodingError "leading zero(s)")
  /\ Rlp.decode_uint64 [x82] = inl Rlp.ios_failure.
Proof.
  destruct (decode_truncated_payload 1024 [x61; x62; x63] 2) as [Hb Hu];
    [cbn; lia | cbn; lia |].
  destruct (decode_truncated_payload 1024 [x00; x07] 1) as [_ Hz];
    [cbn; lia | cbn; lia |].
  destruct (decode_truncated_payload 1024 [x00; x07] 0) as [_ He];
    [cbn; lia | cbn; lia |].
  split; [apply Hb; cbn; lia|]. split; [apply Hu; cbn; lia|].
  split; [apply Hz; cbn; lia | apply He; cbn; lia].
Defined.


(** * Tables: lookups, upserts and erasures *)
Section TableFacts.
Import Kv StageProps MoreProps.

Lemma bytes_compare_refl (a : Bytes) : bytes_compare a a = Eq.
Proof. induction a as [|x a IH]; cbn; [reflexivity|]. now rewrite N.compare_refl. Qed.

Lemma bytes_eqb_eq (a b : Bytes) : bytes_eqb a b = true <-> a = b.
Proof.
  unfold bytes_eqb. split.
  - destruct (bytes_compare a b) eqn:E; try discriminate. intros _. now apply bytes_compare_eq.
  - intros ->. now rewrite bytes_compare_refl.
Qed.

Lemma bytes_eqb_refl (a : Bytes) : bytes_eqb a a = true.
Proof. now apply bytes_eqb_eq. Qed.

Lemma bytes_eqb_neq (a b : Bytes) : bytes_eqb a b = false <-> a <> b.
Proof.
  split.
  - intros H E. apply bytes_eqb_eq in E. congruence.
  - intros H. destruct (bytes_eqb a b) eqn:E; [|reflexivity]. apply bytes_eqb_eq in E.
    contradiction.
Qed.

Lemma bytes_ltb_neq (a b : Bytes) : bytes_ltb a b = true -> a <> b.
Proof. unfold bytes_ltb. intros H ->. now rewrite bytes_compare_refl in H. Qed.

Lemma bytes_ltb_trans (a b c : Bytes) :
  bytes_ltb a b = true -> bytes_ltb b c = true -> bytes_ltb a c = true.
Proof.
  unfold bytes_ltb. revert b c.
  induction a as [|x a IH]; intros [|y b] [|z c]; cbn; try discriminate; auto.
  destruct (N.compare_spec (Byte.to_N x) (Byte.to_N y)) as [Exy|Lxy|Gxy];
    destruct (N.compare_spec (Byte.to_N y) (Byte.to_N z)) as [Eyz|Lyz|Gyz];
    destruct (N.compare_spec (Byte.to_N x) (Byte.to_N z)) as [Exz|Lxz|Gxz];
    try discriminate; try lia; auto.
  apply IH.
Qed.

#[local] Instance key_lt_transitive : Transitive key_lt.
Proof. intros a b c. unfold key_lt. apply bytes_ltb_trans. Qed.

Lemma bytes_compare_gt (a b : Bytes) : bytes_compare a b = Gt -> bytes_ltb b a = true.
Proof. intros H. unfold bytes_ltb. now rewrite (bytes_compare_antisym a b), H. Qed.

(** A key below all the keys of a table is not in it. *)
Lemma value_of_below (t : Table) (k v : Bytes) :
  Forall (key_lt (k, v)) t -> value_of t k = None.
Proof.
  induction 1 as [|[k' v'] t Hlt _ IH]; [reflexivity|].
  cbn. unfold key_lt in Hlt. cbn in Hlt. apply bytes_ltb_neq in Hlt.
  assert (bytes_eqb k' k = false) by (apply bytes_eqb_neq; congruence).
  now rewrite H.
Qed.

Lemma value_of_In (l : Table) (k v : Bytes) :
  NoDup (map fst l) -> In (k, v) l -> value_of l k = Some v.
Proof.
  induction l as [|[k' v'] l IH]; intros Hnd Hin; [contradiction|].
  cbn in Hnd. apply NoDup_cons in Hnd as [Hnotin Hnd]. cbn.
  destruct Hin as [E|Hin].
  - injection E as -> ->. now rewrite bytes_eqb_refl.
  - destruct (bytes_eqb k' k) eqn:E; [|auto].
    apply bytes_eqb_eq in E. subst k'. exfalso. apply Hnotin.
    apply list_elem_of_In. change k with (fst (k, v)). now apply in_map.
Qed.

Lemma value_of_not_In (l : Table) (k : Bytes) :
  ~ In k (map fst l) -> value_of l k = None.
Proof.
  induction l as [|[k' v'] l IH]; intros Hn; [reflexivity|]. cbn in *.
  destruct (bytes_eqb k' k) eqn:E.
  - apply bytes_eqb_eq in E. tauto.
  - apply IH. tauto.
Qed.

(** *** Upsert *)

Lemma value_of_upsert (t : Table) (k v k' : Bytes) :
  value_of (upsert t k v) k' = if bytes_eqb k k' then Some v else value_of t k'.
Proof.
  induction t as [|[ki vi] t IH]; [reflexivity|]. cbn [upsert].
  destruct (bytes_compare k ki) eqn:E.
  - apply bytes_compare_eq in E. subst ki. cbn [value_of].
    now destruct (bytes_eqb k k').
  - reflexivity.
  - cbn [value_of]. rewrite IH. destruct (bytes_eqb ki k') eqn:E2; [|reflexivity].
    apply bytes_eqb_eq in E2. subst k'. unfold bytes_eqb. now rewrite E.
Qed.

Lemma Forall_upsert (P : Entry -> Prop) (t : Table) (k v : Bytes) :
  P (k, v) -> Forall P t -> Forall P (upsert t k v).
Proof.
  intros Hk. induction 1 as [|[ki vi] t Hi Ht IH]; cbn [upsert]; [now constructor|].
  destruct (bytes_compare k ki); repeat constructor; auto.
Qed.

Lemma upsert_sorted (t : Table) (k v : Bytes) :
  sorted_table t -> sorted_table (upsert t k v).
Proof.
  unfold sorted_table. induction 1 as [|[ki vi] t Hs IH Hall]; cbn [upsert].
  - repeat constructor.
  - destruct (bytes_compare k ki) eqn:E.
    + apply bytes_compare_eq in E. subst ki. constructor; [assumption|].
      eapply Forall_impl; [exact Hall|]. intros e He. exact He.
    + constructor; [now constructor|].
      constructor; [unfold key_lt, bytes_ltb; cbn; now rewrite E|].
      eapply Forall_impl; [exact Hall|]. intros e He.
      unfold key_lt in *. cbn in *. eapply bytes_ltb_trans; [|exact He].
      unfold bytes_ltb. now rewrite E.
    + constructor; [exact IH|]. apply Forall_upsert; [|exact Hall].
      unfold key_lt. cbn. now apply bytes_compare_gt.
Qed.

(** *** Erase *)

Lemma erase_missing (t : Table) (k : Bytes) : seek t k = false -> erase t k = t.
Proof.
  induction t as [|[ki vi] t IH]; [reflexivity|]. cbn.
  destruct (bytes_eqb ki k); [discriminate|]. cbn. intros H. now rewrite IH.
Qed.

Lemma Forall_erase (P : Entry -> Prop) (t : Table) (k : Bytes) :
  Forall P t -> Forall P (erase t k).
Proof.
  induction 1 as [|[ki vi] t Hi Ht IH]; cbn; [constructor|].
  destruct (bytes_eqb ki k); [assumption | now constructor].
Qed.

Lemma In_erase (t : Table) (k : Bytes) (e : Entry) : In e (erase t k) -> In e t.
Proof.
  induction t as [|[ki vi] t IH]; cbn; [auto|].
  destruct (bytes_eqb ki k); cbn; intuition.
Qed.

Lemma erase_sorted (t : Table) (k : Bytes) : sorted_table t -> sorted_table (erase t k).
Proof.
  unfold sorted_table. induction 1 as [|[ki vi] t Hs IH Hall]; cbn; [constructor|].
  destruct (bytes_eqb ki k); [assumption|].
  constructor; [exact IH | now apply Forall_erase].
Qed.

Lemma value_of_erase_ne (t : Table) (k k' : Bytes) :
  k <> k' -> value_of (erase t k) k' = value_of t k'.
Proof.
  intros Hne. induction t as [|[ki vi] t IH]; [reflexivity|]. cbn.
  destruct (bytes_eqb ki k) eqn:E; cbn.
  - apply bytes_eqb_eq in E. subst ki.
    assert (bytes_eqb k k' = false) by now apply bytes_eqb_neq. now rewrite H.
  - now rewrite IH.
Qed.

Lemma value_of_erase_eq (t : Table) (k : Bytes) :
  sorted_table t -> value_of (erase t k) k = None.
Proof.
  unfold sorted_table. induction 1 as [|[ki vi] t Hs IH Hall]; [reflexivity|]. cbn.
  destruct (bytes_eqb ki k) eqn:E; cbn.
  - apply bytes_eqb_eq in E. subst ki. eapply value_of_below, Hall.
  - now rewrite E.
Qed.

Lemma value_of_erase_None (t : Table) (k k' : Bytes) :
  value_of t k' = None -> value_of (erase t k) k' = None.
Proof.
  induction t as [|[ki vi] t IH]; [reflexivity|]. cbn.
  destruct (bytes_eqb ki k') eqn:E'; [discriminate|]. intros H.
  destruct (bytes_eqb ki k); [exact H|]. cbn. rewrite E'. auto.
Qed.

(** *** Two sorted tables with the same lookups are the same table *)

Lemma sorted_table_ext (t1 t2 : Table) :
  sorted_table t1 -> sorted_table t2 ->
  (forall k, value_of t1 k = value_of t2 k) -> t1 = t2.
Proof.
  unfold sorted_table. intros H1. revert t2.
  induction H1 as [|[k1 v1] t1 Hs1 IH Hall1]; intros t2 H2 Hext.
  - destruct t2 as [|[k2 v2] t2]; [reflexivity|].
    specialize (Hext k2). cbn in Hext. now rewrite bytes_eqb_refl in Hext.
  - destruct H2 as [|[k2 v2] t2 Hs2 Hall2].
    + specialize (Hext k1). cbn in Hext. now rewrite bytes_eqb_refl in Hext.
    + assert (Hk : k1 = k2).
      { destruct (bytes_compare k1 k2) eqn:E.
        - now apply bytes_compare_eq.
        - exfalso. specialize (Hext k1). cbn in Hext. rewrite bytes_eqb_refl in Hext.
          assert (E2 : bytes_eqb k2 k1 = false).
          { apply bytes_eqb_neq. intros ->. now rewrite bytes_compare_refl in E. }
          rewrite E2 in Hext. rewrite (value_of_below t2 k1 v1) in Hext; [discriminate|].
          eapply Forall_impl; [exact Hall2|]. intros e He.
          unfold key_lt in *. cbn in *. eapply bytes_ltb_trans; [|exact He].
          unfold bytes_ltb. now rewrite E.
        - exfalso. apply bytes_compare_gt in E.
          specialize (Hext k2). cbn in Hext. rewrite bytes_eqb_refl in Hext.
          assert (E2 : bytes_eqb k1 k2 = false).
          { apply bytes_eqb_neq. intros ->. now apply bytes_ltb_neq in E. }
          rewrite E2 in Hext. rewrite (value_of_below t1 k2 v2) in Hext; [discriminate|].
          eapply Forall_impl; [exact Hall1|]. intros e He.
          unfold key_lt in *. cbn in *. eapply bytes_ltb_trans; [exact E | exact He]. }
      subst k2.
      assert (Hv : v1 = v2).
      { specialize (Hext k1). cbn in Hext. rewrite bytes_eqb_refl in Hext. congruence. }
      subst v2. f_equal. apply IH; [exact Hs2|]. intros k.
      destruct (bytes_eqb k1 k) eqn:E.
      * apply bytes_eqb_eq in E. subst k.
        now rewrite (value_of_below t1 k1 v1 Hall1), (value_of_below t2 k1 v1 Hall2).
      * specialize (Hext k). cbn in Hext. now rewrite E in Hext.
Qed.

End TableFacts.

Section LoadLookups.
Import Kv Etl StageProps MoreProps.

Lemma value_of_Some_In (l : Table) (k v : Bytes) : value_of l k = Some v -> In (k, v) l.
Proof.
  induction l as [|[k' v'] l IH]; [discriminate|]. cbn.
  destruct (bytes_eqb k' k) eqn:E.
  - apply bytes_eqb_eq in E. intros H. injection H as ->. subst. now left.
  - auto.
Qed.

Lemma value_of_None_not_In (l : Table) (k : Bytes) :
  value_of l k = None -> ~ In k (map fst l).
Proof.
  induction l as [|[k' v'] l IH]; cbn; [tauto|].
  destruct (bytes_eqb k' k) eqn:E; [discriminate|].
  apply bytes_eqb_neq in E. intros H [H'|H']; [contradiction | now apply IH].
Qed.

(** Lookups do not depend on the order of entries with distinct keys. *)
Lemma value_of_Permutation (l l' : Table) (k : Bytes) :
  Permutation l l' -> NoDup (map fst l) -> value_of l k = value_of l' k.
Proof.
  intros Hperm Hnd.
  assert (Hnd' : NoDup (map fst l')) by now rewrite <- Hperm.
  destruct (value_of l k) as [v|] eqn:E.
  - symmetry. apply value_of_In; [exact Hnd'|].
    apply value_of_Some_In in E. now apply (Permutation_in _ Hperm).
  - symmetry. apply value_of_not_In. apply value_of_None_not_In in E.
    intros Hin. apply E. apply (Permutation_in k (Permutation_map fst (Permutation_sym Hperm))).
    exact Hin.
Qed.

(** Upserts are never refused; entries with distinct keys end up under
    their keys and nothing else changes. *)
Lemma put_all_upsert (es : list Entry) (t : Table) :
  exists r,
    put_all MDBX_UPSERT t es = Some r
    /\ (sorted_table t -> sorted_table r)
    /\ (NoDup (map fst es) ->
        forall k, value_of r k
                  = match value_of es k with Some v => Some v | None => value_of t k end).
Proof.
  revert t. induction es as [|[k v] es IH]; intros t.
  - exists t. repeat split; auto.
  - cbn [put_all put]. destruct (IH (upsert t k v)) as (r & Hr & Hs & Hv).
    exists r. split; [exact Hr|]. split.
    + intros H. apply Hs. now apply upsert_sorted.
    + intros Hnd k'. cbn in Hnd. apply NoDup_cons in Hnd as [Hnotin Hnd].
      rewrite (Hv Hnd k'), value_of_upsert. cbn [value_of].
      destruct (bytes_eqb k k') eqn:E; [|reflexivity].
      apply bytes_eqb_eq in E. subst k'.
      rewrite value_of_not_In; [reflexivity|]. intros Hin. apply Hnotin.
      now apply list_elem_of_In.
Qed.

(** The load of [forward]: with distinct keys in the collector it is never
    refused, in either mode; afterwards each collected key holds its
    collected value, every other key holds what it held, and the table is
    still sorted. *)
Lemma load_lookups (c : Collector) (t : Table) :
  NoDup (map fst c) ->
  exists r,
    load c t (if ms_entries t =? 0 then MDBX_APPEND else MDBX_UPSERT) = Some r
    /\ (sorted_table t -> sorted_table r)
    /\ forall k, value_of r k
                 = match value_of c k with Some v => Some v | None => value_of t k end.
Proof.
  intros Hnd.
  assert (Hperm : Permutation (sorted_entries c) c) by apply merge_sort_Permutation.
  assert (Hnd' : NoDup (map fst (sorted_entries c))) by now rewrite Hperm.
  destruct (N.eqb_spec (ms_entries t) 0) as [E|E].
  - assert (t = []) by (destruct t; [reflexivity | unfold ms_entries in E; cbn in E; lia]).
    subst t. exists (sorted_entries c). split; [now apply load_append_empty|]. split.
    + intros _. unfold sorted_table.
      apply (@Sorted_StronglySorted _ key_lt key_lt_transitive).
      apply sorted_distinct_keys; [apply Sorted_merge_sort, entry_le_total | exact Hnd'].
    + intros k. rewrite (value_of_Permutation _ _ k Hperm Hnd'). now destruct (value_of c k).
  - unfold load. destruct (put_all_upsert (sorted_entries c) t) as (r & Hr & Hs & Hv).
    exists r. split; [exact Hr|]. split; [exact Hs|].
    intros k. rewrite (Hv Hnd' k). now rewrite (value_of_Permutation _ _ k Hperm Hnd').
Qed.

End LoadLookups.

Section LoadModes.
Import Kv Etl Stages StageProps MoreProps.

Lemma sorted_snoc {A} (R : relation A) (l : list A) (a : A) :
  Sorted R l ->
  match last l with Some x => R x a | None => True end ->
  Sorted R (l ++ [a]).
Proof.
  induction 1 as [|x l Hs IH Hhd]; cbn [app]; intros Hlast; [repeat constructor|].
  rewrite last_cons in Hlast.
  destruct Hhd as [|y l Hxy].
  - cbn in *. repeat constructor. exact Hlast.
  - constructor.
    + apply IH. rewrite last_cons in *. now destruct (last l).
    + constructor. exact Hxy.
Qed.

(** An append is accepted only behind a smaller key: a load in
    [MDBX_APPEND] mode that goes through has laid the entries down as they
    came, and their keys go strictly up. *)
Lemma put_all_append_inv (es : list Entry) (t r : Table) :
  Sorted key_lt t ->
  put_all MDBX_APPEND t es = Some r ->
  r = t ++ es /\ Sorted key_lt (t ++ es).
Proof.
  revert t. induction es as [|[k v] es IH]; intros t Hs H; cbn [put_all] in H.
  - injection H as <-. now rewrite app_nil_r.
  - destruct (put MDBX_APPEND t k v) as [t1|] eqn:Hput; [|discriminate].
    assert (Ht1 : t1 = t ++ [(k, v)] /\ Sorted key_lt (t ++ [(k, v)])).
    { cbn [put] in Hput. unfold append in Hput.
      destruct (last t) as [[k' v']|] eqn:Hlast.
      - destruct (bytes_ltb k' k) eqn:E; [|discriminate].
        injection Hput as <-. split; [reflexivity|].
        apply sorted_snoc; [exact Hs|]. unfold Entry. rewrite Hlast. exact E.
      - apply last_None in Hlast. subst t. injection Hput as <-.
        split; [reflexivity | repeat constructor]. }
    destruct Ht1 as [-> Hs1]. apply IH in H; [|exact Hs1].
    now rewrite <- app_assoc in H.
Qed.

Lemma sorted_keys_distinct (l : list Entry) : Sorted key_lt l -> NoDup (map fst l).
Proof.
  intros Hs. apply (@Sorted_StronglySorted _ key_lt key_lt_transitive) in Hs.
  induction Hs as [|a l Hs IH Hall]; cbn [map]; [apply NoDup_nil; exact I|].
  apply NoDup_cons. split; [|exact IH].
  rewrite list_elem_of_In, in_map_iff. intros ([k v] & Hk & Hin).
  rewrite List.Forall_forall in Hall. specialize (Hall _ Hin).
  unfold key_lt in Hall. apply bytes_ltb_neq in Hall. cbn in *. congruence.
Qed.

(** Into an empty table, a collector that holds a key twice is refused in
    [MDBX_APPEND] mode. *)
Lemma load_append_refused (c : Collector) :
  ~ NoDup (map fst c) -> load c [] MDBX_APPEND = None.
Proof.
  intros Hdup. unfold load.
  destruct (put_all MDBX_APPEND [] (sorted_entries c)) as [r|] eqn:H; [|reflexivity].
  exfalso. apply Hdup.
  apply put_all_append_inv in H as [_ Hs]; [|constructor]. cbn [app] in Hs.
  apply sorted_keys_distinct in Hs.
  unfold sorted_entries in Hs. now rewrite (merge_sort_Permutation entry_le c) in Hs.
Qed.

(** A load in [MDBX_UPSERT] mode is never refused: it upserts the sorted
    entries one after the other. *)
Lemma put_all_upsert_fold (es : list Entry) (t : Table) :
  put_all MDBX_UPSERT t es
  = Some (fold_left (fun t (e : Bytes * Bytes) => upsert t (fst e) (snd e)) es t).
Proof.
  revert t. induction es as [|[k v] es IH]; intros t; [reflexivity|].
  cbn [put_all put fold_left fst snd]. apply IH.
Qed.

Lemma sorted_entries_length (c : Collector) : length (sorted_entries c) = length c.
Proof. apply Permutation_length, merge_sort_Permutation. Qed.

End LoadModes.

(** C5. When [forward] reaches the load with a collector that is not empty
    (the loop has run to the end of the cursor and the last block number is
    the watermark of Bodies), the size of HeaderNumbers decides the mode of
    the load, and the table shows it.
    With no entry in the table the load is an append. It lays the collected
    entries down as they are sorted, which MDBX accepts exactly when their
    keys go strictly up, that is when the collected hashes are pairwise
    distinct: then [forward] succeeds and HeaderNumbers is the sorted
    entries; with a hash collected twice the put is refused, [forward] does
    not succeed and nothing is committed.
    With an entry in the table the load is an upsert. It is never refused,
    be a hash collected twice or below the keys of the table: [forward]
    succeeds and HeaderNumbers is the former table with the sorted entries
    put one after the other at their place in key order, a later one
    overwriting.
    In both cases every put issued carries that mode. *)
Theorem forward_load_mode
    (ordinal : N) (tx_mgr : Kv.TransactionManager) (context : Stages.SyncContext)
    (collector : Etl.Collector) :
  let start :=
    StageProps.first_block (StageProps.progress tx_mgr context Stages.kBlockHashesKey) in
  let target := StageProps.progress tx_mgr context Stages.kBlockBodiesKey in
  let table := Kv.HeaderNumbers (Kv.txn tx_mgr) in
  let outcome := Stages.forward (Stages.StageBlockHashes ordinal) tx_mgr context in
  let result := fst (fst outcome) in
  let tx_mgr' := snd (fst outcome) in
  Stages.forward_loop
    (Kv.find (Kv.CanonicalHashes (Kv.txn tx_mgr)) (Kv.block_key start))
    start 0 Etl.new_collector
    = inr (target, collector) ->
  collector <> [] ->
  (Kv.ms_entries table = 0 ->
   (NoDup (map fst collector) ->
    result = Stages.kSuccess
    /\ Kv.HeaderNumbers (Kv.txn tx_mgr') = Etl.sorted_entries collector
    /\ StageProps.put_flags (Kv.journal tx_mgr')
       = StageProps.put_flags (Kv.journal tx_mgr)
         ++ repeat Kv.MDBX_APPEND (length collector))
   /\ (~ NoDup (map fst collector) ->
       result <> Stages.kSuccess
       /\ Kv.committed tx_mgr' = Kv.committed tx_mgr))
  /\ (Kv.ms_entries table <> 0 ->
      result = Stages.kSuccess
      /\ Kv.HeaderNumbers (Kv.txn tx_mgr')
         = fold_left (fun t (e : Bytes * Bytes) => Kv.upsert t (fst e) (snd e))
             (Etl.sorted_entries collector) table
      /\ StageProps.put_flags (Kv.journal tx_mgr')
         = StageProps.put_flags (Kv.journal tx_mgr)
           ++ repeat Kv.MDBX_UPSERT (length collector)).
Proof.
  intros start target table outcome result tx_mgr' Hloop Hne.
  assert (Hempty : Etl.empty collector = false)
    by (destruct collector; [contradiction | reflexivity]).
  assert (Hflags : forall flags journal0 bn,
             StageProps.put_flags
               (Kv.journal
                  (Kv.commit
                     (Kv.write_stage_progress
                        (Kv.mkTx (Kv.committed tx_mgr) journal0
                           (Kv.journal tx_mgr
                            ++ map (fun e => Kv.OpPut flags (fst e) (snd e))
                                 (Etl.sorted_entries collector)))
                        Stages.kBlockHashesKey bn)))
             = StageProps.put_flags (Kv.journal tx_mgr) ++ repeat flags (length collector)).
  { intros flags journal0 bn. unfold Kv.commit, Kv.write_stage_progress. cbn [Kv.journal].
    rewrite !put_flags_app, put_flags_map_OpPut, sorted_entries_length.
    cbn [StageProps.put_flags flat_map app]. now rewrite !app_nil_r. }
  subst result tx_mgr' outcome. rewrite forward_eq. cbv zeta.
  unfold start, target in Hloop. rewrite Hloop, N.eqb_refl, Hempty. cbn [negb].
  subst table. split.
  - intros Hzero.
    assert (Htable : Kv.HeaderNumbers (Kv.txn tx_mgr) = []).
    { destruct (Kv.HeaderNumbers (Kv.txn tx_mgr)); [reflexivity|].
      unfold Kv.ms_entries in Hzero. cbn in Hzero. lia. }
    rewrite Htable. change (Kv.ms_entries [] =? 0) with true. cbv iota. split.
    + intros Hnd. rewrite load_append_empty by exact Hnd. cbn [fst snd].
      split; [reflexivity|]. split; [reflexivity|]. apply Hflags.
    + intros Hdup. rewrite load_append_refused by exact Hdup. cbn [fst snd].
      split; [discriminate | reflexivity].
  - intros Hpos. apply N.eqb_neq in Hpos. rewrite Hpos.
    unfold Etl.load. rewrite put_all_upsert_fold. cbn [fst snd].
    split; [reflexivity|]. split; [reflexivity|]. apply Hflags.
Qed.

Lemma forward_load_mode_witness :
  let stage := Stages.StageBlockHashes 1 in
  let twins := [(Kv.block_key 0, StageProps.hash_11);
                (Kv.block_key 1, StageProps.hash_aa);
                (Kv.block_key 2, StageProps.hash_aa)] in
  let fresh := StageProps.open_tx
                 (StageProps.db_of (StageProps.canonical_0_3 StageProps.hash_11) [] 3 0) in
  let fresh_twins := StageProps.open_tx (StageProps.db_of twins [] 2 0) in
  let stale_twins :=
    StageProps.open_tx
      (StageProps.db_of twins [(StageProps.hash_cc, Kv.block_key 9)] 2 0) in
  let run tx := Stages.forward stage tx StageProps.fresh_context in
  (fst (fst (run fresh)) = Stages.kSuccess
   /\ Kv.HeaderNumbers (Kv.txn (snd (fst (run fresh))))
      = (StageProps.hash_11, Kv.block_key 0) :: StageProps.inverse_1_3
   /\ StageProps.put_flags (Kv.journal (snd (fst (run fresh))))
      = repeat Kv.MDBX_APPEND 4)
  /\ (fst (fst (run fresh_twins)) <> Stages.kSuccess
      /\ Kv.committed (snd (fst (run fresh_twins))) = Kv.committed fresh_twins)
  /\ (fst (fst (run stale_twins)) = Stages.kSuccess
      /\ Kv.HeaderNumbers (Kv.txn (snd (fst (run stale_twins))))
         = [(StageProps.hash_11, Kv.block_key 0);
            (StageProps.hash_aa, Kv.block_key 2);
            (StageProps.hash_cc, Kv.block_key 9)]
      /\ StageProps.put_flags (Kv.journal (snd (fst (run stale_twins))))
         = repeat Kv.MDBX_UPSERT 3).
Proof.
  intros stage twins fresh fresh_twins stale_twins run.
  assert (Htwins : ~ NoDup (map fst [(StageProps.hash_11, Kv.block_key 0);
                                      (StageProps.hash_aa, Kv.block_key 1);
                                      (StageProps.hash_aa, Kv.block_key 2)])).
  { cbn [map fst]. intros H. apply NoDup_cons in H as [_ H].
    apply NoDup_cons in H as [H _]. apply H. apply list_elem_of_here. }
  assert (Hdistinct : NoDup (map fst ((StageProps.hash_11, Kv.block_key 0)
                                       :: StageProps.inverse_1_3))).
  { apply inverse_keys_distinct. cbn. intuition discriminate. }
  split; [|split].
  - destruct (forward_load_mode 1 fresh StageProps.fresh_context
                ((StageProps.hash_11, Kv.block_key 0) :: StageProps.inverse_1_3))
      as [Happend _]; [vm_compute; reflexivity | discriminate |].
    destruct Happend as [Hgood _]; [reflexivity|].
    destruct (Hgood Hdistinct) as (Hresult & Htable & Hflags).
    split; [exact Hresult|]. split.
    + unfold run, stage. rewrite Htable. vm_compute. reflexivity.
    + exact Hflags.
  - destruct (forward_load_mode 1 fresh_twins StageProps.fresh_context
                [(StageProps.hash_11, Kv.block_key 0);
                 (StageProps.hash_aa, Kv.block_key 1);
                 (StageProps.hash_aa, Kv.block_key 2)])
      as [Happend _]; [vm_compute; reflexivity | discriminate |].
    destruct Happend as [_ Hrefused]; [reflexivity|].
    exact (Hrefused Htwins).
  - destruct (forward_load_mode 1 stale_twins StageProps.fresh_context
                [(StageProps.hash_11, Kv.block_key 0);
                 (StageProps.hash_aa, Kv.block_key 1);
                 (StageProps.hash_aa, Kv.block_key 2)])
      as [_ Hupsert]; [vm_compute; reflexivity | discriminate |].
    destruct Hupsert as (Hresult & Htable & Hflags); [discriminate|].
    split; [exact Hresult|]. split.
    + unfold run, stage. rewrite Htable. vm_compute. reflexivity.
    + exact Hflags.
Defined.


Section ChainFacts.
Import Kv Stages StageProps MoreProps.

Lemma be_bytes_length (w : nat) (n : N) : length (be_bytes w n) = w.
Proof. induction w as [|w IH]; cbn; [reflexivity | now rewrite IH]. Qed.

Lemma be_value_be_bytes (w : nat) (n : N) :
  be_value (be_bytes w n) = n mod 256 ^ N.of_nat w.
Proof.
  induction w as [|w IH].
  - cbn. now rewrite N.mod_1_r.
  - cbn [be_bytes]. rewrite be_value_cons, be_bytes_length, IH.
    rewrite to_N_byte_of_N by (apply N.mod_lt; discriminate).
    rewrite Nat2N.inj_succ, N.pow_succ_r', (N.mul_comm 256).
    rewrite N.Div0.mod_mul_r. lia.
Qed.

Lemma load_big_u64_block_key (n : N) : n < 2 ^ 64 -> load_big_u64 (block_key n) = n.
Proof.
  intros Hn. unfold load_big_u64, block_key.
  rewrite firstn_all2 by (rewrite be_bytes_length; lia).
  rewrite be_value_be_bytes. apply N.mod_small. exact Hn.
Qed.

Lemma chain_length (first : BlockNum) (hashes : list Bytes) :
  length (chain first hashes) = length hashes.
Proof. revert first. induction hashes as [|h hs IH]; intros first; cbn; auto. Qed.

Lemma chain_hashes (first : BlockNum) (hashes : list Bytes) :
  map snd (chain first hashes) = hashes.
Proof. revert first. induction hashes as [|h hs IH]; intros first; cbn; [|rewrite IH]; auto. Qed.

Lemma chain_keys_8 (first : BlockNum) (hashes : list Bytes) : keys_8 (chain first hashes).
Proof.
  revert first. induction hashes as [|h hs IH]; intros first; [constructor|].
  cbn [chain]. constructor; [apply be_bytes_length | apply IH].
Qed.

Lemma chain_lookup (first : BlockNum) (hashes : list Bytes) (i : nat) (h : Bytes) :
  hashes !! i = Some h -> In (block_key (first + N.of_nat i), h) (chain first hashes).
Proof.
  revert first i. induction hashes as [|h0 hs IH]; intros first [|i] H; try discriminate.
  - injection H as ->. left. f_equal. f_equal. lia.
  - right. cbn in H. apply (IH (first + 1)) in H.
    replace (first + N.of_nat (S i)) with (first + 1 + N.of_nat i) by lia. exact H.
Qed.

(** A chain that does not run past [2 ^ 64] passes the two checks of the
    loops. *)
Lemma in_sequence_chain (first : BlockNum) (hashes : list Bytes) :
  Forall (fun h => length h = 32%nat) hashes ->
  first + N.of_nat (length hashes) <= 2 ^ 64 ->
  in_sequence (chain first hashes) first = true.
Proof.
  intros Hall. revert first. induction Hall as [|h hs Hh Hall IH]; intros first Hle;
    [reflexivity|].
  cbn [chain in_sequence]. cbn [length] in Hle.
  rewrite load_big_u64_block_key by lia. rewrite N.eqb_refl, Hh. cbn [andb Nat.eqb].
  change (32 =? Util.kHashLength)%nat with true. cbn [andb].
  destruct hs as [|h' hs']; [reflexivity|].
  rewrite wrap64_small by (cbn [length] in Hle; lia).
  apply IH. cbn [length] in *. lia.
Qed.

Lemma chain_last_block (first : BlockNum) (hashes : list Bytes) (k v : Bytes) :
  last (chain first hashes) = Some (k, v) ->
  k = block_key (first + N.of_nat (length hashes) - 1).
Proof.
  revert first. induction hashes as [|h hs IH]; intros first; [discriminate|].
  cbn [chain]. rewrite last_cons. destruct (last (chain (first + 1) hs)) as [[k' v']|] eqn:E.
  - intros H. injection H as <- <-. apply IH in E. rewrite E. f_equal. cbn [length]. lia.
  - intros H. injection H as <- <-. apply last_None in E.
    destruct hs; [|discriminate]. f_equal. cbn. lia.
Qed.

(** The loop of [forward] over a chain collects every entry, hash first,
    and ends on the number of its last block. *)
Lemma forward_loop_chain (first block_number : BlockNum) (hashes : list Bytes) :
  hashes <> [] ->
  Forall (fun h => length h = 32%nat) hashes ->
  first + N.of_nat (length hashes) <= 2 ^ 64 ->
  forward_loop (chain first hashes) first block_number Etl.new_collector
  = inr (first + N.of_nat (length hashes) - 1,
         map (fun e => (snd e, fst e)) (chain first hashes)).
Proof.
  intros Hne Hall Hle.
  rewrite <- (app_nil_r (chain first hashes)) at 1.
  rewrite forward_loop_app by now apply in_sequence_chain.
  cbn [forward_loop Etl.new_collector app]. f_equal. f_equal.
  destruct (last (chain first hashes)) as [[k v]|] eqn:E.
  - apply chain_last_block in E. subst k. apply load_big_u64_block_key.
    destruct hashes; [contradiction | cbn [length] in *; lia].
  - apply last_None in E. destruct hashes; [contradiction | discriminate].
Qed.

Lemma swap_chain_keys (first : BlockNum) (hashes : list Bytes) :
  map fst (map (fun e : Bytes * Bytes => (snd e, fst e)) (chain first hashes)) = hashes.
Proof. rewrite map_map. cbn. apply chain_hashes. Qed.

End ChainFacts.


(** * Further properties of the BlockHashes stage *)
Section ForwardChain.
Import Kv Stages StageProps MoreProps.

(** [forward] over a chain of distinct 32-byte hashes that ends on the
    watermark of Bodies: the load is accepted and the result is the loaded
    table with the new watermark, committed. *)
Lemma forward_chain_eq (ordinal : N) (tx_mgr : TransactionManager) (context : SyncContext)
    (hashes : list Bytes) :
  let start := first_block (progress tx_mgr context kBlockHashesKey) in
  let target := progress tx_mgr context kBlockBodiesKey in
  let headers := HeaderNumbers (txn tx_mgr) in
  find (CanonicalHashes (txn tx_mgr)) (block_key start) = chain start hashes ->
  hashes <> [] ->
  Forall (fun h => length h = 32%nat) hashes ->
  NoDup hashes ->
  start + N.of_nat (length hashes) = target + 1 ->
  target < 2 ^ 64 ->
  exists loaded journal',
    (sorted_table headers -> sorted_table loaded)
    /\ (forall k,
          value_of loaded k
          = match value_of (map (fun e : Bytes * Bytes => (snd e, fst e)) (chain start hashes)) k with
            | Some v => Some v
            | None => value_of headers k
            end)
    /\ forward (StageBlockHashes ordinal) tx_mgr context
       = (kSuccess,
          commit (write_stage_progress
                    (mkTx (committed tx_mgr) (set_HeaderNumbers loaded (txn tx_mgr)) journal')
                    kBlockHashesKey target),
          set_progresses_
            (<[kBlockHashesKey := target]> (progresses_ (after_reads tx_mgr context)))
            (after_reads tx_mgr context)).
Proof.
  intros start target headers Hfind Hne Hall Hnd Hlen Htarget.
  rewrite forward_eq. cbv zeta. fold start target headers. rewrite Hfind.
  rewrite forward_loop_chain by (auto; lia).
  replace (start + N.of_nat (length hashes) - 1) with target by lia.
  rewrite N.eqb_refl. cbn [negb].
  assert (Hempty : Etl.empty (map (fun e : Bytes * Bytes => (snd e, fst e)) (chain start hashes))
                   = false).
  { unfold Etl.empty, Etl.size. rewrite length_map, chain_length.
    destruct hashes; [contradiction | reflexivity]. }
  rewrite Hempty.
  destruct (load_lookups (map (fun e : Bytes * Bytes => (snd e, fst e)) (chain start hashes)) headers)
    as (loaded & Hload & Hsorted & Hvalues).
  { now rewrite swap_chain_keys. }
  rewrite Hload. exists loaded. eexists. split; [exact Hsorted|]. split; [exact Hvalues|].
  reflexivity.
Qed.

Lemma value_of_swap_chain (first : BlockNum) (hashes : list Bytes) :
  NoDup hashes ->
  (forall i h, hashes !! i = Some h ->
     value_of (map (fun e : Bytes * Bytes => (snd e, fst e)) (chain first hashes)) h
     = Some (block_key (first + N.of_nat i)))
  /\ (forall k, ~ In k hashes ->
        value_of (map (fun e : Bytes * Bytes => (snd e, fst e)) (chain first hashes)) k = None).
Proof.
  intros Hnd. split.
  - intros i h Hi. apply value_of_In; [now rewrite swap_chain_keys|].
    apply (chain_lookup first) in Hi.
    change (h, block_key (first + N.of_nat i))
      with ((fun e : Bytes * Bytes => (snd e, fst e)) (block_key (first + N.of_nat i), h)).
    now apply in_map.
  - intros k Hk. apply value_of_not_In. now rewrite swap_chain_keys.
Qed.

Lemma progress_request_unwind (tx_mgr : TransactionManager) (context : SyncContext)
    (h : BlockNum) (k : string) :
  progress tx_mgr (request_unwind h context) k = progress tx_mgr context k.
Proof.
  unfold progress, get_progress, request_unwind. cbn [progresses_].
  now destruct (progresses_ context !! k).
Qed.

End ForwardChain.

(** X13. What a successful [forward] builds. If the canonical entries from
    the first block the stage looks for are those of consecutive blocks with
    distinct 32-byte hashes and end on the watermark of Bodies, [forward]
    returns [kSuccess]; afterwards HeaderNumbers maps the hash of each of
    these blocks to its block key and holds under every other key what it
    held before, it is still sorted, CanonicalHashes is untouched, the
    transaction is committed and the watermark of BlockHashes is that of
    Bodies, in the cache and in the database. *)
Theorem forward_indexes_chain
    (ordinal : N) (tx_mgr : Kv.TransactionManager) (context : Stages.SyncContext)
    (hashes : list Bytes) :
  let start :=
    StageProps.first_block (StageProps.progress tx_mgr context Stages.kBlockHashesKey) in
  let target := StageProps.progress tx_mgr context Stages.kBlockBodiesKey in
  Kv.find (Kv.CanonicalHashes (Kv.txn tx_mgr)) (Kv.block_key start)
    = MoreProps.chain start hashes ->
  hashes <> [] ->
  Forall (fun h => length h = 32%nat) hashes ->
  NoDup hashes ->
  start + N.of_nat (length hashes) = target + 1 ->
  target < 2 ^ 64 ->
  exists tx_mgr' context',
    Stages.forward (Stages.StageBlockHashes ordinal) tx_mgr context
      = (Stages.kSuccess, tx_mgr', context')
    /\ (forall i h, hashes !! i = Some h ->
          MoreProps.value_of (Kv.HeaderNumbers (Kv.txn tx_mgr')) h
          = Some (Kv.block_key (start + N.of_nat i)))
    /\ (forall k, ~ In k hashes ->
          MoreProps.value_of (Kv.HeaderNumbers (Kv.txn tx_mgr')) k
          = MoreProps.value_of (Kv.HeaderNumbers (Kv.txn tx_mgr)) k)
    /\ (MoreProps.sorted_table (Kv.HeaderNumbers (Kv.txn tx_mgr)) ->
        MoreProps.sorted_table (Kv.HeaderNumbers (Kv.txn tx_mgr')))
    /\ Kv.CanonicalHashes (Kv.txn tx_mgr') = Kv.CanonicalHashes (Kv.txn tx_mgr)
    /\ Kv.committed tx_mgr' = Kv.txn tx_mgr'
    /\ StageProps.progress tx_mgr' context' Stages.kBlockHashesKey = target
    /\ Kv.read_stage_progress (Kv.committed tx_mgr') Stages.kBlockHashesKey = target.
Proof.
  intros start target Hfind Hne Hall Hnd Hlen Htarget.
  destruct (forward_chain_eq ordinal tx_mgr context hashes Hfind Hne Hall Hnd Hlen Htarget)
    as (loaded & journal' & Hsorted & Hvalues & Hfwd).
  fold start target in Hvalues, Hfwd.
  destruct (value_of_swap_chain start hashes Hnd) as [Hin Hout].
  eexists _, _. split; [exact Hfwd|].
  unfold Kv.commit, Kv.write_stage_progress, Kv.set_SyncStageProgress, Kv.set_HeaderNumbers.
  cbn [Kv.txn Kv.committed Kv.HeaderNumbers Kv.CanonicalHashes Kv.SyncStageProgress].
  repeat split.
  - intros i h Hi. now rewrite Hvalues, (Hin i h Hi).
  - intros k Hk. now rewrite Hvalues, (Hout k Hk).
  - exact Hsorted.
  - unfold StageProps.progress, Stages.get_progress.
    cbn [Stages.progresses_ Stages.set_progresses_].
    rewrite lookup_insert_eq. reflexivity.
  - unfold Kv.read_stage_progress. cbn [Kv.SyncStageProgress].
    rewrite lookup_insert_eq. reflexivity.
Qed.

Lemma forward_indexes_chain_witness :
  let tx := StageProps.open_tx
              (StageProps.db_of (StageProps.canonical_0_3 StageProps.hash_11)
                 [(StageProps.hash_11, Kv.block_key 0);
                  (StageProps.hash_aa, Kv.block_key 1)] 3 1) in
  exists tx' context',
    Stages.forward (Stages.StageBlockHashes 1) tx StageProps.fresh_context
      = (Stages.kSuccess, tx', context')
    /\ MoreProps.value_of (Kv.HeaderNumbers (Kv.txn tx')) StageProps.hash_cc
       = Some (Kv.block_key 3)
    /\ MoreProps.value_of (Kv.HeaderNumbers (Kv.txn tx')) StageProps.hash_11
       = Some (Kv.block_key 0)
    /\ StageProps.progress tx' context' Stages.kBlockHashesKey = 3.
Proof.
  intros tx.
  destruct (forward_indexes_chain 1 tx StageProps.fresh_context
              [StageProps.hash_bb; StageProps.hash_cc])
    as (tx' & context' & Hfwd & Hin & Hout & _ & _ & _ & Hp & _).
  - vm_compute. reflexivity.
  - discriminate.
  - repeat constructor.
  - repeat constructor; cbn; rewrite ?list_elem_of_In; cbn; intuition discriminate.
  - vm_compute. reflexivity.
  - vm_compute. reflexivity.
  - exists tx', context'. split; [exact Hfwd|]. split; [|split].
    + exact (Hin 1%nat StageProps.hash_cc eq_refl).
    + rewrite (Hout StageProps.hash_11); [reflexivity|]. cbn. intuition discriminate.
    + exact Hp.
Defined.

Section ForwardExits.
Import Kv Stages StageProps.

(** The loop collects one entry for each entry it passes. *)
Lemma forward_loop_collects (source_data : Table) (expected block_number : BlockNum)
    (collector : Etl.Collector) (last_seen : BlockNum) (collected : Etl.Collector) :
  forward_loop source_data expected block_number collector = inr (last_seen, collected) ->
  length collected = (length collector + length source_data)%nat
  /\ (source_data = [] -> last_seen = block_number).
Proof.
  revert expected block_number collector.
  induction source_data as [|[key value] rest IH];
    intros expected block_number collector H; cbn in H.
  - injection H as <- <-. split; [cbn; lia | reflexivity].
  - destruct (negb (load_big_u64 key =? expected)); [discriminate|].
    destruct (negb (length value =? Util.kHashLength)%nat); [discriminate|].
    apply IH in H as [H _]. unfold Etl.collect in H. rewrite length_app in H.
    cbn [length] in *. split; [lia | discriminate].
Qed.

End ForwardExits.

(** X14. [forward] writes on success only, and then commits. For every
    state, by the result it returns: with [kBadChainSequence] or
    [kBadBlockHash] the transaction is exactly as before; with [kSuccess]
    CanonicalHashes is as before and either nothing was collected, the
    watermark of Bodies is 0 and the transaction is exactly as before, or
    the transaction is committed with the watermark of BlockHashes set to
    that of Bodies, in the cache and in the database. With each of these
    results the watermarks of the other stages read as before. A run that
    ends in one of the [catch] clauses is not described. *)
Theorem forward_all_or_nothing
    (ordinal : N) (tx_mgr : Kv.TransactionManager) (context : Stages.SyncContext) :
  let outcome := Stages.forward (Stages.StageBlockHashes ordinal) tx_mgr context in
  let result := fst (fst outcome) in
  let tx_mgr' := snd (fst outcome) in
  let context' := snd outcome in
  let target := StageProps.progress tx_mgr context Stages.kBlockBodiesKey in
  (result = Stages.kBadChainSequence \/ result = Stages.kBadBlockHash ->
   tx_mgr' = tx_mgr)
  /\ (result = Stages.kSuccess ->
      Kv.CanonicalHashes (Kv.txn tx_mgr') = Kv.CanonicalHashes (Kv.txn tx_mgr)
      /\ (tx_mgr' = tx_mgr /\ target = 0
          \/ Kv.committed tx_mgr' = Kv.txn tx_mgr'
             /\ StageProps.progress tx_mgr' context' Stages.kBlockHashesKey = target
             /\ Kv.read_stage_progress (Kv.committed tx_mgr') Stages.kBlockHashesKey
                = target))
  /\ (result = Stages.kSuccess \/ result = Stages.kBadChainSequence
      \/ result = Stages.kBadBlockHash ->
      forall k, k <> Stages.kBlockHashesKey ->
        StageProps.progress tx_mgr' context' k = StageProps.progress tx_mgr context k).
Proof.
  cbv zeta. rewrite forward_eq. cbv zeta.
  pose proof (progress_after_reads tx_mgr context) as Hreads.
  destruct (Stages.forward_loop _ _ _ _) as [r|[bn col]] eqn:Hloop.
  { apply forward_loop_early in Hloop. cbn [fst snd].
    split; [reflexivity|]. split; [|intros _ k _; apply Hreads].
    intros ->. destruct Hloop; discriminate. }
  destruct (N.eqb_spec bn (StageProps.progress tx_mgr context Stages.kBlockBodiesKey))
    as [Hbn|Hbn]; cbn [negb fst snd].
  2:{ split; [reflexivity|]. split; [discriminate|]. intros _ k _. apply Hreads. }
  destruct (Etl.empty col) eqn:Hempty.
  { cbn [fst snd]. split; [reflexivity|]. split; [|intros _ k _; apply Hreads].
    intros _. split; [reflexivity|]. left. split; [reflexivity|].
    apply forward_loop_collects in Hloop as [Hlen Hnil].
    unfold Etl.empty, Etl.size in Hempty. apply N.eqb_eq in Hempty.
    rewrite <- Hbn. apply Hnil.
    destruct (Kv.find _ _); [reflexivity | cbn [length] in Hlen; lia]. }
  destruct (Etl.load _ _ _) as [loaded|].
  2:{ cbn [fst snd]. split; [reflexivity|]. split; [discriminate|].
      intros [H|[H|H]]; discriminate. }
  cbn [fst snd].
  unfold Kv.commit, Kv.write_stage_progress, Kv.set_SyncStageProgress, Kv.set_HeaderNumbers.
  cbn [Kv.txn Kv.committed Kv.HeaderNumbers Kv.CanonicalHashes Kv.SyncStageProgress].
  split; [intros [H|H]; discriminate|]. split.
  - intros _. split; [reflexivity|]. right. split; [reflexivity|]. subst bn. split.
    + unfold StageProps.progress at 1. unfold Stages.get_progress.
      cbn [Stages.progresses_ Stages.set_progresses_].
      rewrite lookup_insert_eq. reflexivity.
    + unfold Kv.read_stage_progress. cbn [Kv.SyncStageProgress].
      rewrite lookup_insert_eq. reflexivity.
  - intros _ k Hk. rewrite <- (Hreads k).
    unfold StageProps.progress, Stages.get_progress, Kv.read_stage_progress.
    cbn [Stages.progresses_ Stages.set_progresses_ Kv.txn Kv.SyncStageProgress].
    rewrite !lookup_insert_ne by congruence.
    now destruct (Stages.progresses_ (StageProps.after_reads tx_mgr context) !! k).
Qed.

Section UnwindChain.
Import Kv Stages StageProps MoreProps.

(** What [delete_mapping] does to the transaction, found or not. *)
Lemma delete_mapping_fields (tx_mgr : TransactionManager) (hash : Bytes) :
  committed (delete_mapping tx_mgr hash) = committed tx_mgr
  /\ CanonicalHashes (txn (delete_mapping tx_mgr hash)) = CanonicalHashes (txn tx_mgr)
  /\ SyncStageProgress (txn (delete_mapping tx_mgr hash)) = SyncStageProgress (txn tx_mgr)
  /\ HeaderNumbers (txn (delete_mapping tx_mgr hash))
     = erase (HeaderNumbers (txn tx_mgr)) hash.
Proof.
  unfold delete_mapping. destruct (seek (HeaderNumbers (txn tx_mgr)) hash) eqn:E.
  - cbn. auto.
  - repeat split. symmetry. now apply erase_missing.
Qed.

(** The loop of [unwind], whatever it meets: nothing is committed, only
    HeaderNumbers changes, by erasures, and an early return carries one of
    the two error codes. *)
Lemma unwind_loop_frame (source_data : Table) (expected : BlockNum)
    (tx_mgr : TransactionManager) :
  let result := fst (unwind_loop source_data expected tx_mgr) in
  let tx_mgr' := snd (unwind_loop source_data expected tx_mgr) in
  committed tx_mgr' = committed tx_mgr
  /\ CanonicalHashes (txn tx_mgr') = CanonicalHashes (txn tx_mgr)
  /\ SyncStageProgress (txn tx_mgr') = SyncStageProgress (txn tx_mgr)
  /\ (forall e, In e (HeaderNumbers (txn tx_mgr')) -> In e (HeaderNumbers (txn tx_mgr)))
  /\ (result = None \/ result = Some kBadChainSequence \/ result = Some kBadBlockHash).
Proof.
  cbv zeta. revert expected tx_mgr.
  induction source_data as [|[key value] rest IH]; intros expected tx_mgr; cbn.
  - auto 10.
  - destruct (negb (load_big_u64 key =? expected)); [cbn; auto 10|].
    destruct (negb (length value =? Util.kHashLength)%nat); [cbn; auto 10|].
    destruct (IH (wrap64 (expected + 1)) (delete_mapping tx_mgr value))
      as (H1 & H2 & H3 & H4 & H5).
    destruct (delete_mapping_fields tx_mgr value) as (D1 & D2 & D3 & D4).
    repeat split; try congruence; try exact H5.
    intros e He. apply H4 in He. rewrite D4 in He. eapply In_erase, He.
Qed.

(** The loop of [unwind] over entries that pass the checks erases their
    hashes one after the other and completes. *)
Lemma unwind_loop_in_sequence (source_data : Table) (expected : BlockNum)
    (tx_mgr : TransactionManager) :
  in_sequence source_data expected = true ->
  fst (unwind_loop source_data expected tx_mgr) = None
  /\ HeaderNumbers (txn (snd (unwind_loop source_data expected tx_mgr)))
     = fold_left erase (map snd source_data) (HeaderNumbers (txn tx_mgr)).
Proof.
  revert expected tx_mgr.
  induction source_data as [|[key value] rest IH]; intros expected tx_mgr Hseq;
    [now split|].
  cbn [in_sequence] in Hseq.
  apply andb_prop in Hseq as [Hseq Hrest]. apply andb_prop in Hseq as [Hkey Hlen].
  cbn [unwind_loop]. rewrite Hkey, Hlen. cbn [negb].
  destruct (IH _ (delete_mapping tx_mgr value) Hrest) as [H1 H2].
  split; [exact H1|]. rewrite H2. cbn [map fold_left snd].
  now destruct (delete_mapping_fields tx_mgr value) as (_ & _ & _ & ->).
Qed.

Lemma fold_erase_None (hashes : list Bytes) (t : Table) (k : Bytes) :
  value_of t k = None -> value_of (fold_left erase hashes t) k = None.
Proof.
  revert t. induction hashes as [|h hs IH]; intros t H; [exact H|].
  cbn. apply IH. now apply value_of_erase_None.
Qed.

(** After the erasures the hashes are gone and every other key holds what
    it held. *)
Lemma fold_erase_lookups (hashes : list Bytes) (t : Table) :
  sorted_table t ->
  sorted_table (fold_left erase hashes t)
  /\ (forall k, In k hashes -> value_of (fold_left erase hashes t) k = None)
  /\ (forall k, ~ In k hashes -> value_of (fold_left erase hashes t) k = value_of t k).
Proof.
  revert t. induction hashes as [|h hs IH]; intros t Hs.
  - cbn. repeat split; auto. contradiction.
  - destruct (IH (erase t h) (erase_sorted t h Hs)) as (H1 & H2 & H3).
    cbn [fold_left]. split; [exact H1|]. split.
    + intros k [->|Hin].
      * apply fold_erase_None. now apply value_of_erase_eq.
      * now apply H2.
    + intros k Hk. cbn in Hk. rewrite H3 by tauto. apply value_of_erase_ne. tauto.
Qed.

(** [unwind] to a height below the watermark, over a chain: the result. *)
Lemma unwind_chain_eq (ordinal : N) (tx_mgr : TransactionManager) (context : SyncContext)
    (h : BlockNum) (hashes : list Bytes) :
  unwind_height_ context = Some h ->
  h < progress tx_mgr context kBlockHashesKey ->
  find (CanonicalHashes (txn tx_mgr)) (block_key (first_block h))
    = chain (first_block h) hashes ->
  Forall (fun x => length x = 32%nat) hashes ->
  first_block h + N.of_nat (length hashes) <= 2 ^ 64 ->
  exists tx2,
    committed tx2 = committed tx_mgr
    /\ CanonicalHashes (txn tx2) = CanonicalHashes (txn tx_mgr)
    /\ HeaderNumbers (txn tx2) = fold_left erase hashes (HeaderNumbers (txn tx_mgr))
    /\ unwind (StageBlockHashes ordinal) tx_mgr context
       = (kSuccess,
          commit (write_stage_progress tx2 kBlockHashesKey h),
          set_progresses_
            (<[kBlockHashesKey := h]>
               (progresses_ (snd (get_progress (txn tx_mgr) kBlockHashesKey context))))
            (snd (get_progress (txn tx_mgr) kBlockHashesKey context))).
Proof.
  intros Hh Hlt Hfind Hall Hle.
  rewrite unwind_eq. cbv zeta. rewrite Hh.
  destruct (N.leb_spec (progress tx_mgr context kBlockHashesKey) h); [lia|].
  rewrite Hfind.
  pose proof (unwind_loop_in_sequence (chain (first_block h) hashes) (first_block h) tx_mgr
                (in_sequence_chain _ _ Hall Hle)) as [Hnone Hheaders].
  pose proof (unwind_loop_frame (chain (first_block h) hashes) (first_block h) tx_mgr)
    as (Hc & Hcanon & _ & _ & _).
  cbv zeta in Hc, Hcanon.
  destruct (unwind_loop _ _ _) as [o tx2]. cbn [fst snd] in *. subst o.
  exists tx2. rewrite chain_hashes in Hheaders. auto.
Qed.

End UnwindChain.

(** X15. What a successful [unwind] removes. If an unwind to a height [h]
    below the watermark is requested and the canonical entries from the
    first block above [h] are those of consecutive blocks with 32-byte
    hashes, [unwind] returns [kSuccess]; afterwards a sorted HeaderNumbers
    holds none of these hashes and holds under every other key what it held
    before, CanonicalHashes is untouched, the transaction is committed and
    the watermark of BlockHashes is [h], in the cache and in the database. *)
Theorem unwind_removes_chain
    (ordinal : N) (tx_mgr : Kv.TransactionManager) (context : Stages.SyncContext)
    (h : N) (hashes : list Bytes) :
  Stages.unwind_height_ context = Some h ->
  h < StageProps.progress tx_mgr context Stages.kBlockHashesKey ->
  Kv.find (Kv.CanonicalHashes (Kv.txn tx_mgr)) (Kv.block_key (StageProps.first_block h))
    = MoreProps.chain (StageProps.first_block h) hashes ->
  Forall (fun x => length x = 32%nat) hashes ->
  StageProps.first_block h + N.of_nat (length hashes) <= 2 ^ 64 ->
  MoreProps.sorted_table (Kv.HeaderNumbers (Kv.txn tx_mgr)) ->
  exists tx_mgr' context',
    Stages.unwind (Stages.StageBlockHashes ordinal) tx_mgr context
      = (Stages.kSuccess, tx_mgr', context')
    /\ (forall k, In k hashes ->
          MoreProps.value_of (Kv.HeaderNumbers (Kv.txn tx_mgr')) k = None)
    /\ (forall k, ~ In k hashes ->
          MoreProps.value_of (Kv.HeaderNumbers (Kv.txn tx_mgr')) k
          = MoreProps.value_of (Kv.HeaderNumbers (Kv.txn tx_mgr)) k)
    /\ MoreProps.sorted_table (Kv.HeaderNumbers (Kv.txn tx_mgr'))
    /\ Kv.CanonicalHashes (Kv.txn tx_mgr') = Kv.CanonicalHashes (Kv.txn tx_mgr)
    /\ Kv.committed tx_mgr' = Kv.txn tx_mgr'
    /\ StageProps.progress tx_mgr' context' Stages.kBlockHashesKey = h
    /\ Kv.read_stage_progress (Kv.committed tx_mgr') Stages.kBlockHashesKey = h.
Proof.
  intros Hh Hlt Hfind Hall Hle Hsorted.
  destruct (unwind_chain_eq ordinal tx_mgr context h hashes Hh Hlt Hfind Hall Hle)
    as (tx2 & Hc & Hcanon & Hheaders & Hunwind).
  destruct (fold_erase_lookups hashes _ Hsorted) as (Hs & Hin & Hout).
  eexists _, _. split; [exact Hunwind|].
  unfold Kv.commit, Kv.write_stage_progress, Kv.set_SyncStageProgress.
  cbn [Kv.txn Kv.committed Kv.HeaderNumbers Kv.CanonicalHashes Kv.SyncStageProgress].
  rewrite Hheaders. repeat split; auto.
  - unfold StageProps.progress, Stages.get_progress.
    cbn [Stages.progresses_ Stages.set_progresses_].
    rewrite lookup_insert_eq. reflexivity.
  - unfold Kv.read_stage_progress. cbn [Kv.SyncStageProgress].
    rewrite lookup_insert_eq. reflexivity.
Qed.

Lemma unwind_removes_chain_witness :
  let tx := StageProps.open_tx
              (StageProps.db_of (StageProps.canonical_0_3 StageProps.hash_11)
                 ((StageProps.hash_11, Kv.block_key 0) :: StageProps.inverse_1_3) 3 3) in
  exists tx' context',
    Stages.unwind (Stages.StageBlockHashes 1) tx (StageProps.unwinding_to 1)
      = (Stages.kSuccess, tx', context')
    /\ MoreProps.value_of (Kv.HeaderNumbers (Kv.txn tx')) StageProps.hash_cc = None
    /\ MoreProps.value_of (Kv.HeaderNumbers (Kv.txn tx')) StageProps.hash_aa
       = Some (Kv.block_key 1)
    /\ StageProps.progress tx' context' Stages.kBlockHashesKey = 1.
Proof.
  intros tx.
  destruct (unwind_removes_chain 1 tx (StageProps.unwinding_to 1) 1
              [StageProps.hash_bb; StageProps.hash_cc])
    as (tx' & context' & Hunwind & Hin & Hout & _ & _ & _ & Hp & _).
  - reflexivity.
  - vm_compute. reflexivity.
  - vm_compute. reflexivity.
  - repeat constructor.
  - vm_compute. discriminate.
  - repeat constructor.
  - exists tx', context'. split; [exact Hunwind|]. split; [|split].
    + apply Hin. cbn. auto.
    + rewrite (Hout StageProps.hash_aa); [reflexivity|]. cbn. intuition discriminate.
    + exact Hp.
Defined.

(** X16. [unwind] only erases, and commits on success only. For every
    state, by the result it returns: with [kSuccess], [kBadChainSequence] or
    [kBadBlockHash] CanonicalHashes is as before and every entry of
    HeaderNumbers afterwards was there before; with [kBadChainSequence] or
    [kBadBlockHash] nothing is committed and the stored watermarks are
    untouched, although the open transaction may already hold erasures;
    with [kSuccess] either no unwind was due and the transaction is exactly
    as before, or a height [h] below the watermark was requested and the
    transaction is committed with the watermark of BlockHashes set to [h].
    A run that ends in one of the [catch] clauses is not described. *)
Theorem unwind_never_adds
    (ordinal : N) (tx_mgr : Kv.TransactionManager) (context : Stages.SyncContext) :
  let outcome := Stages.unwind (Stages.StageBlockHashes ordinal) tx_mgr context in
  let result := fst (fst outcome) in
  let tx_mgr' := snd (fst outcome) in
  (result = Stages.kSuccess \/ result = Stages.kBadChainSequence
   \/ result = Stages.kBadBlockHash ->
   Kv.CanonicalHashes (Kv.txn tx_mgr') = Kv.CanonicalHashes (Kv.txn tx_mgr)
   /\ (forall e, In e (Kv.HeaderNumbers (Kv.txn tx_mgr')) ->
                 In e (Kv.HeaderNumbers (Kv.txn tx_mgr))))
  /\ (result = Stages.kBadChainSequence \/ result = Stages.kBadBlockHash ->
      Kv.committed tx_mgr' = Kv.committed tx_mgr
      /\ Kv.SyncStageProgress (Kv.txn tx_mgr') = Kv.SyncStageProgress (Kv.txn tx_mgr))
  /\ (result = Stages.kSuccess ->
      tx_mgr' = tx_mgr
      \/ exists h,
           Stages.unwind_height_ context = Some h
           /\ h < StageProps.progress tx_mgr context Stages.kBlockHashesKey
           /\ Kv.committed tx_mgr' = Kv.txn tx_mgr'
           /\ Kv.read_stage_progress (Kv.committed tx_mgr') Stages.kBlockHashesKey = h).
Proof.
  cbv zeta. rewrite unwind_eq. cbv zeta.
  destruct (Stages.unwind_height_ context) as [h|]; [|cbn; auto 10].
  destruct (N.leb_spec (StageProps.progress tx_mgr context Stages.kBlockHashesKey) h)
    as [|Hlt]; [cbn; auto 10|].
  pose proof (unwind_loop_frame
                (Kv.find (Kv.CanonicalHashes (Kv.txn tx_mgr))
                   (Kv.block_key (StageProps.first_block h)))
                (StageProps.first_block h) tx_mgr) as (Hc & Hcanon & Hssp & Hin & Hres).
  cbv zeta in *.
  destruct (Stages.unwind_loop _ _ _) as [[r|] tx2]; cbn [fst snd] in *.
  - split; [auto|]. split; [auto|].
    intros ->. destruct Hres as [Hr|[Hr|Hr]]; discriminate.
  - unfold Kv.commit, Kv.write_stage_progress, Kv.set_SyncStageProgress.
    cbn [Kv.txn Kv.committed Kv.HeaderNumbers Kv.CanonicalHashes Kv.SyncStageProgress].
    split; [auto|]. split; [intros [H|H]; discriminate|].
    intros _. right. exists h. repeat split; [exact Hlt|].
    unfold Kv.read_stage_progress. cbn [Kv.SyncStageProgress].
    now rewrite lookup_insert_eq.
Qed.

Section RoundTrip.
Import Kv Stages StageProps MoreProps.

Lemma bytes_eq_dec (a b : Bytes) : {a = b} + {a <> b}.
Proof.
  destruct (bytes_eqb a b) eqn:E.
  - left. now apply bytes_eqb_eq.
  - right. now apply bytes_eqb_neq.
Qed.

End RoundTrip.

(** X17. Forward, then unwind to where forward started, restores
    HeaderNumbers. Let the stage stand at watermark [p], below the watermark
    of Bodies, with the canonical entries above [p] those of consecutive
    blocks with distinct 32-byte hashes, none of them indexed yet, and
    HeaderNumbers sorted. Then [forward] succeeds, [unwind] with [p]
    requested succeeds, and afterwards HeaderNumbers is exactly the table
    it was and the watermark is [p] again. *)
Theorem forward_then_unwind_restores
    (ordinal : N) (tx_mgr : Kv.TransactionManager) (context : Stages.SyncContext)
    (hashes : list Bytes) :
  let p := StageProps.progress tx_mgr context Stages.kBlockHashesKey in
  let start := StageProps.first_block p in
  let target := StageProps.progress tx_mgr context Stages.kBlockBodiesKey in
  Kv.find (Kv.CanonicalHashes (Kv.txn tx_mgr)) (Kv.block_key start)
    = MoreProps.chain start hashes ->
  hashes <> [] ->
  Forall (fun h => length h = 32%nat) hashes ->
  NoDup hashes ->
  start + N.of_nat (length hashes) = target + 1 ->
  p < target < 2 ^ 64 ->
  MoreProps.sorted_table (Kv.HeaderNumbers (Kv.txn tx_mgr)) ->
  (forall h, In h hashes -> MoreProps.value_of (Kv.HeaderNumbers (Kv.txn tx_mgr)) h = None) ->
  exists tx1 context1 tx2 context2,
    Stages.forward (Stages.StageBlockHashes ordinal) tx_mgr context
      = (Stages.kSuccess, tx1, context1)
    /\ Stages.unwind (Stages.StageBlockHashes ordinal) tx1
         (MoreProps.request_unwind p context1)
       = (Stages.kSuccess, tx2, context2)
    /\ Kv.HeaderNumbers (Kv.txn tx2) = Kv.HeaderNumbers (Kv.txn tx_mgr)
    /\ Kv.CanonicalHashes (Kv.txn tx2) = Kv.CanonicalHashes (Kv.txn tx_mgr)
    /\ Kv.committed tx2 = Kv.txn tx2
    /\ StageProps.progress tx2 context2 Stages.kBlockHashesKey = p.
Proof.
  intros p start target Hfind Hne Hall Hnd Hlen [Hp Htarget] Hsorted Hfresh.
  destruct (forward_chain_eq ordinal tx_mgr context hashes Hfind Hne Hall Hnd Hlen Htarget)
    as (loaded & journal' & Hsorted' & Hvalues & Hfwd).
  fold p start target in Hvalues, Hfwd.
  destruct (value_of_swap_chain start hashes Hnd) as [_ Hout].
  set (tx1 := Kv.commit
                (Kv.write_stage_progress
                   (Kv.mkTx (Kv.committed tx_mgr)
                      (Kv.set_HeaderNumbers loaded (Kv.txn tx_mgr)) journal')
                   Stages.kBlockHashesKey target)) in *.
  set (context1 := Stages.set_progresses_
                     (<[Stages.kBlockHashesKey := target]>
                        (Stages.progresses_ (StageProps.after_reads tx_mgr context)))
                     (StageProps.after_reads tx_mgr context)) in *.
  assert (Hp1 : StageProps.progress tx1 (MoreProps.request_unwind p context1)
                  Stages.kBlockHashesKey = target).
  { rewrite progress_request_unwind. unfold StageProps.progress, Stages.get_progress.
    subst context1. cbn [Stages.progresses_ Stages.set_progresses_].
    rewrite lookup_insert_eq. reflexivity. }
  destruct (unwind_chain_eq ordinal tx1 (MoreProps.request_unwind p context1) p hashes)
    as (tx2 & Hc & Hcanon & Hheaders & Hunwind).
  - reflexivity.
  - rewrite Hp1. exact Hp.
  - exact Hfind.
  - exact Hall.
  - fold start. lia.
  - eexists _, _, _, _. split; [exact Hfwd|]. split; [exact Hunwind|].
    unfold Kv.commit, Kv.write_stage_progress, Kv.set_SyncStageProgress.
    cbn [Kv.txn Kv.committed Kv.HeaderNumbers Kv.CanonicalHashes Kv.SyncStageProgress].
    rewrite Hheaders, Hcanon.
    change (Kv.HeaderNumbers (Kv.txn tx1)) with loaded.
    change (Kv.CanonicalHashes (Kv.txn tx1)) with (Kv.CanonicalHashes (Kv.txn tx_mgr)).
    repeat split.
    + destruct (fold_erase_lookups hashes loaded (Hsorted' Hsorted)) as (Hs & Hin & Hnotin).
      apply sorted_table_ext; [exact Hs | exact Hsorted|].
      intros k. destruct (in_dec bytes_eq_dec k hashes) as [Hk|Hk].
      * now rewrite (Hin k Hk), (Hfresh k Hk).
      * now rewrite (Hnotin k Hk), Hvalues, (Hout k Hk).
    + unfold StageProps.progress, Stages.get_progress.
      cbn [Stages.progresses_ Stages.set_progresses_].
      rewrite lookup_insert_eq. reflexivity.
Qed.

Lemma forward_then_unwind_restores_witness :
  let tx := StageProps.open_tx
              (StageProps.db_of (StageProps.canonical_0_3 StageProps.hash_11)
                 [(StageProps.hash_11, Kv.block_key 0);
                  (StageProps.hash_aa, Kv.block_key 1)] 3 1) in
  exists tx1 context1 tx2 context2,
    Stages.forward (Stages.StageBlockHashes 1) tx StageProps.fresh_context
      = (Stages.kSuccess, tx1, context1)
    /\ Stages.unwind (Stages.StageBlockHashes 1) tx1 (MoreProps.request_unwind 1 context1)
       = (Stages.kSuccess, tx2, context2)
    /\ Kv.HeaderNumbers (Kv.txn tx2)
       = [(StageProps.hash_11, Kv.block_key 0); (StageProps.hash_aa, Kv.block_key 1)].
Proof.
  intros tx.
  destruct (forward_then_unwind_restores 1 tx StageProps.fresh_context
              [StageProps.hash_bb; StageProps.hash_cc])
    as (tx1 & context1 & tx2 & context2 & Hfwd & Hunwind & Hheaders & _).
  - vm_compute. reflexivity.
  - discriminate.
  - repeat constructor.
  - repeat constructor; cbn; rewrite ?list_elem_of_In; cbn; intuition discriminate.
  - vm_compute. reflexivity.
  - vm_compute. split; reflexivity.
  - repeat constructor.
  - intros h [<-|[<-|[]]]; reflexivity.
  - exists tx1, context1, tx2, context2. split; [exact Hfwd|]. split; [exact Hunwind|].
    exact Hheaders.
Defined.


(** * Further properties of the sync context *)

(** X18. [update_progress] keeps cache and database in step: after writing
    watermark [n] for a stage, both [get_progress] and the progress table of
    the open transaction give [n] for it; every other stage reads as before
    from either; and nothing is committed by the write itself. *)
Theorem update_progress_read_back
    (tx_mgr : Kv.TransactionManager) (context : Stages.SyncContext)
    (stage_key : string) (n : N) :
  let tx_mgr' := fst (Stages.update_progress tx_mgr stage_key n context) in
  let context' := snd (Stages.update_progress tx_mgr stage_key n context) in
  StageProps.progress tx_mgr' context' stage_key = n
  /\ Kv.read_stage_progress (Kv.txn tx_mgr') stage_key = n
  /\ (forall k, k <> stage_key ->
        StageProps.progress tx_mgr' context' k = StageProps.progress tx_mgr context k
        /\ Kv.read_stage_progress (Kv.txn tx_mgr') k
           = Kv.read_stage_progress (Kv.txn tx_mgr) k)
  /\ Kv.committed tx_mgr' = Kv.committed tx_mgr
  /\ Kv.HeaderNumbers (Kv.txn tx_mgr') = Kv.HeaderNumbers (Kv.txn tx_mgr)
  /\ Kv.CanonicalHashes (Kv.txn tx_mgr') = Kv.CanonicalHashes (Kv.txn tx_mgr).
Proof.
  cbv zeta.
  unfold Stages.update_progress, StageProps.progress, Stages.get_progress,
    Kv.read_stage_progress, Kv.write_stage_progress, Kv.set_SyncStageProgress.
  cbn [fst snd Kv.txn Kv.committed Kv.SyncStageProgress Kv.HeaderNumbers Kv.CanonicalHashes
       Stages.progresses_ Stages.set_progresses_].
  rewrite !lookup_insert_eq. cbn [fst default].
  repeat split.
  - rewrite !lookup_insert_ne by congruence.
    now destruct (Stages.progresses_ context !! k).
  - now rewrite lookup_insert_ne by congruence.
Qed.

(** X19. The cache of the context shadows the database. Once a watermark
    has been read, a later [get_progress] gives the same value whatever the
    database then holds, and leaves the context as it is; after [clear] the
    database is read again. [clear] drops both caches and sets the
    first-cycle flag, and keeps the unwind height and the done flag. *)
Theorem get_progress_cached_until_clear
    (db db' : Kv.Db) (stage_key : string) (context : Stages.SyncContext) :
  let read := Stages.get_progress db stage_key context in
  Stages.get_progress db' stage_key (snd read) = (fst read, snd read)
  /\ fst (Stages.get_progress db' stage_key (Stages.clear (snd read)))
     = Kv.read_stage_progress db' stage_key
  /\ fst (Stages.get_prune_progress db' stage_key (Stages.clear (snd read)))
     = Kv.read_stage_prune_progress db' stage_key
  /\ Stages.unwind_height (Stages.clear context) = Stages.unwind_height context
  /\ Stages.is_done (Stages.clear context) = Stages.is_done context
  /\ Stages.first_cycle_ (Stages.clear (Stages.clear_first_cycle context)) = true.
Proof.
  cbv zeta. split; [apply get_progress_again|].
  unfold Stages.get_progress, Stages.get_prune_progress, Stages.clear.
  cbn [Stages.progresses_ Stages.prune_progresses_].
  rewrite !lookup_empty. repeat split.
Qed.
